(** * Dynamics solvers of exotica: cart-pole and articulated-body models

    A shallow embedding of
      - [exotica_cartpole_dynamics_solver/src/cartpole_dynamics_solver.cpp]
      - [exotica_pinocchio_dynamics_solver/src/pinocchio_dynamics_solver.cpp]

    Conventions of the embedding.
      - A C++ [double] is a real number of [R]: the statements below are about
        the formulas the code evaluates, not about their rounding.
      - An [Eigen::VectorXd] is a [list R]; an [Eigen::MatrixXd] is a record
        of its two sizes and its rows.
      - A call either returns ([Ok]), throws the exception of [ThrowPretty]
        ([Throw]), or does not survive ([Abort]): a failing [eigen_assert]
        (an index or a block outside the object, operands of different sizes)
        or an empty pointer that is dereferenced.
      - Member functions that write members of the solver are state
        transformers [St -> result A * St]; the state is kept as it is at the
        point where the call fails. *)

From Stdlib Require Import String Reals Lra Lia ZArith Bool Arith List.
Import ListNotations.

Local Open Scope R_scope.

(** ** Outcomes of a call *)

Inductive result (A : Type) : Type :=
| Ok (a : A)
| Throw (msg : string)
| Abort.

Arguments Ok {A} a.
Arguments Throw {A} msg.
Arguments Abort {A}.

Definition rbind {A B : Type} (r : result A) (k : A -> result B) : result B :=
  match r with
  | Ok a => k a
  | Throw msg => Throw msg
  | Abort => Abort
  end.

Notation "x <- r ;; k" := (rbind r (fun x => k))
  (at level 61, r at next level, right associativity).

Definition is_Ok {A : Type} (r : result A) : bool :=
  match r with Ok _ => true | _ => false end.

Definition is_Throw {A : Type} (r : result A) : bool :=
  match r with Throw _ => true | _ => false end.

(** State transformers for the member functions that write members. *)
Definition M (St A : Type) : Type := St -> result A * St.

Definition mret {St A : Type} (a : A) : M St A := fun s => (Ok a, s).

Definition mbind {St A B : Type} (m : M St A) (k : A -> M St B) : M St B :=
  fun s =>
    match m s with
    | (Ok a, s') => k a s'
    | (Throw msg, s') => (Throw msg, s')
    | (Abort, s') => (Abort, s')
    end.

Definition lift {St A : Type} (r : result A) : M St A := fun s => (r, s).
Definition get {St : Type} : M St St := fun s => (Ok s, s).
Definition modify {St : Type} (g : St -> St) : M St unit := fun s => (Ok tt, g s).

Notation "x <~ m ;; k" := (mbind m (fun x => k))
  (at level 61, m at next level, right associativity).
Notation "m ;;; k" := (mbind m (fun _ => k))
  (at level 61, right associativity).

(** ** The part of Eigen the solvers use *)

Module Eigen.

Definition Vec : Type := list R.

Definition size (v : Vec) : nat := length v.

(** [v(i)] *)
Definition coeff (v : Vec) (i : nat) : result R :=
  match nth_error v i with
  | Some a => Ok a
  | None => Abort
  end.

(** The coefficients [g 0 .. g (n-1)]. *)
Definition vec_init (n : nat) (g : nat -> R) : Vec := map g (seq 0 n).

(** [VectorXd::Zero(n)], [v.setZero(n)] *)
Definition vZero (n : nat) : Vec := repeat 0 n.

(** [v.head(n)] and [v.tail(n)], read. *)
Definition head (n : nat) (v : Vec) : result Vec :=
  if n <=? length v then Ok (firstn n v) else Abort.

Definition tail (n : nat) (v : Vec) : result Vec :=
  if n <=? length v then Ok (skipn (length v - n) v) else Abort.

(** [v.head(n) = w] and [v.tail(n) = w]: a block is not resized. *)
Definition assign_head (n : nat) (v w : Vec) : result Vec :=
  if (n <=? length v) && (length w =? n) then Ok (w ++ skipn n v) else Abort.

Definition assign_tail (n : nat) (v w : Vec) : result Vec :=
  if (n <=? length v) && (length w =? n)
  then Ok (firstn (length v - n) v ++ w) else Abort.

(** [v.head(n)] handed to a callee that leaves the coefficients [g] in it. *)
Definition fill_head (n : nat) (v : Vec) (g : nat -> R) : result Vec :=
  if n <=? length v then Ok (vec_init n g ++ skipn n v) else Abort.

Fixpoint zipWith (op : R -> R -> R) (a b : Vec) : Vec :=
  match a, b with
  | x :: a', y :: b' => op x y :: zipWith op a' b'
  | _, _ => []
  end.

(** [a + b], [a - b]: operands of one size. *)
Definition vadd (a b : Vec) : result Vec :=
  if length a =? length b then Ok (zipWith Rplus a b) else Abort.

Definition vsub (a b : Vec) : result Vec :=
  if length a =? length b then Ok (zipWith Rminus a b) else Abort.

(** [c * v] *)
Definition vscale (c : R) (v : Vec) : Vec := map (Rmult c) v.

(** Matrices: the two sizes and the rows. *)
Record Mat : Type := mkMat {
  rows : nat;
  cols : nat;
  entries : list (list R)
}.

Definition mat_init (r c : nat) (g : nat -> nat -> R) : Mat :=
  {| rows := r; cols := c;
     entries := map (fun i => map (g i) (seq 0 c)) (seq 0 r) |}.

(** [m(i, j)], read inside the matrix. *)
Definition mcoeff (m : Mat) (i j : nat) : R := nth j (nth i (entries m) []) 0.

Definition kron (i j : nat) : R := if i =? j then 1 else 0.

(** [MatrixXd::Zero(r, c)], [m.setZero(r, c)], [MatrixXd::Identity(r, c)] *)
Definition mZero (r c : nat) : Mat := mat_init r c (fun _ _ => 0).
Definition mIdentity (r c : nat) : Mat := mat_init r c kron.

(** A block of a matrix: first row, first column, height, width. *)
Record Block : Type := mkBlock {
  row0 : nat;
  col0 : nat;
  height : nat;
  width : nat
}.

(** [m.block(i0, j0, h, w)] and the corners; outside the matrix they assert. *)
Definition block (m : Mat) (i0 j0 h w : nat) : result Block :=
  if (i0 + h <=? rows m) && (j0 + w <=? cols m)
  then Ok (mkBlock i0 j0 h w) else Abort.

Definition topLeftCorner (m : Mat) (h w : nat) : result Block :=
  if (h <=? rows m) && (w <=? cols m)
  then Ok (mkBlock 0 0 h w) else Abort.

Definition topRightCorner (m : Mat) (h w : nat) : result Block :=
  if (h <=? rows m) && (w <=? cols m)
  then Ok (mkBlock 0 (cols m - w) h w) else Abort.

Definition bottomRightCorner (m : Mat) (h w : nat) : result Block :=
  if (h <=? rows m) && (w <=? cols m)
  then Ok (mkBlock (rows m - h) (cols m - w) h w) else Abort.

Definition inside (b : Block) (i j : nat) : bool :=
  (row0 b <=? i) && (i <? row0 b + height b) &&
  (col0 b <=? j) && (j <? col0 b + width b).

(** The coefficients of a block, as a matrix of the block's size. *)
Definition read (m : Mat) (b : Block) : Mat :=
  mat_init (height b) (width b) (fun i j => mcoeff m (row0 b + i) (col0 b + j)).

(** The matrix after the coefficients [g] were written through the block:
    nothing outside the block changes, and the matrix keeps its sizes. *)
Definition write (m : Mat) (b : Block) (g : nat -> nat -> R) : Mat :=
  mat_init (rows m) (cols m)
    (fun i j => if inside b i j then g (i - row0 b)%nat (j - col0 b)%nat
                else mcoeff m i j).

(** [blk.setIdentity()] and [blk *= c] *)
Definition setIdentity (m : Mat) (b : Block) : Mat := write m b kron.

Definition scale_in_place (m : Mat) (b : Block) (c : R) : Mat :=
  write m b (fun i j => mcoeff m (row0 b + i) (col0 b + j) * c).

(** A matrix given by its rows, as a comma initialiser fills it. *)
Definition of_rows (r c : nat) (l : list (list R)) : Mat := mkMat r c l.

End Eigen.

Import Eigen.

(** ** The scene a solver is bound to *)

(** The base of the controlled robot, as the kinematic tree declares it. *)
Inductive BaseType : Type := FIXED | FLOATING | PLANAR.

Definition BaseType_eqb (a b : BaseType) : bool :=
  match a, b with
  | FIXED, FIXED | FLOATING, FLOATING | PLANAR, PLANAR => true
  | _, _ => false
  end.

(** What the solvers read of a scene: [GetKinematicTree().GetNumControlledJoints()],
    [GetKinematicTree().GetControlledBaseType()] and
    [GetKinematicTree().GetRobotModel()->getURDF()]. *)
Record Scene (URDF : Type) : Type := mkScene {
  NumControlledJoints : Z;
  ControlledBaseType : BaseType;
  getURDF : URDF
}.

Arguments mkScene {URDF}.
Arguments NumControlledJoints {URDF}.
Arguments ControlledBaseType {URDF}.
Arguments getURDF {URDF}.

(** ** CartpoleDynamicsSolver *)

Module Cartpole.

(** The members the code reads. The three sizes are the [int] members of the
    base class (they hold sizes, hence [nat]); [m_c], [m_p], [l] and [g] are
    the cart mass, the pole mass, the pole length and gravity, declared in the
    solver's header and bound by its initialiser. *)
Record CartpoleDynamicsSolver : Type := mkSolver {
  num_positions_ : nat;
  num_velocities_ : nat;
  num_controls_ : nat;
  m_c : R;
  m_p : R;
  l : R;
  g : R
}.

(** [CartpoleDynamicsSolver::CartpoleDynamicsSolver()]; the four constants are
    taken as given. *)
Definition new (m_c m_p l g : R) : CartpoleDynamicsSolver :=
  {| num_positions_ := 2;
     num_velocities_ := 2;
     num_controls_ := 1;
     m_c := m_c; m_p := m_p; l := l; g := g |}.

(** [void AssignScene(ScenePtr scene_in)] *)
Definition AssignScene {U : Type} (scene_in : Scene U)
  : M CartpoleDynamicsSolver unit :=
  let num_positions_in := NumControlledJoints scene_in in
  if negb (num_positions_in =? 2)%Z
  then lift (Throw "Robot model may not be a Cartpole.")
  else mret tt.

Section Dynamics.

Variable s : CartpoleDynamicsSolver.

Let m_c := m_c s.
Let m_p := m_p s.
Let l := l s.
Let g := g s.

(** [Eigen::VectorXd f(const StateVector& x, const ControlVector& u)] *)
Definition f (x u : Vec) : result Vec :=
  theta <- coeff x 1 ;;
  xdot <- coeff x 2 ;;
  thetadot <- coeff x 3 ;;
  let sin_theta := sin theta in
  let cos_theta := cos theta in
  let theta_dot_squared := thetadot * thetadot in
  u0 <- coeff u 0 ;;
  Ok [ xdot; thetadot;
       (u0 + m_p * sin_theta * (l * theta_dot_squared + g * cos_theta)) /
         (m_c + m_p * sin_theta * sin_theta);
       (- (l * m_p * cos_theta * sin_theta * theta_dot_squared + u0 * cos_theta +
           (m_c + m_p) * g * sin_theta)) /
         (l * m_c + l * m_p * sin_theta * sin_theta) ].

(** [Eigen::MatrixXd fx(const StateVector& x, const ControlVector& u)];
    [pow(d, 2)] is [d ^ 2]. *)
Definition fx (x u : Vec) : result Mat :=
  theta <- coeff x 1 ;;
  xdot <- coeff x 2 ;;
  tdot <- coeff x 3 ;;
  let sin_theta := sin theta in
  let cos_theta := cos theta in
  u0 <- coeff u 0 ;;
  Ok (of_rows 4 4
    [ [0; 0; 1; 0];
      [0; 0; 0; 1];
      [0;
       (-2) * m_p * (m_p * (g * cos_theta + l * tdot * tdot) * sin_theta + u0) *
         sin_theta * cos_theta / (m_c + m_p * sin_theta * sin_theta) ^ 2 +
       ((- g) * m_p * sin_theta * sin_theta +
        m_p * (g * cos_theta + l * tdot * tdot) * cos_theta) /
         (m_c + m_p * sin_theta * sin_theta);
       0;
       2 * l * m_p * tdot * sin_theta / (m_c + m_p * sin_theta * sin_theta)];
      [0;
       (-2) * l * m_p *
         ((- g) * (m_c + m_p) * sin_theta -
          l * m_p * tdot * tdot * sin_theta * cos_theta - u0 * cos_theta) *
         sin_theta * cos_theta / (l * m_c + l * m_p * sin_theta * sin_theta) ^ 2 +
       ((- g) * (m_c + m_p) * cos_theta + l * m_p * tdot * tdot * sin_theta * sin_theta -
        l * m_p * tdot * tdot * cos_theta * cos_theta + u0 * sin_theta) /
         (l * m_c + l * m_p * sin_theta * sin_theta);
       0;
       (-2) * l * m_p * tdot * sin_theta * cos_theta /
         (l * m_c + l * m_p * sin_theta * sin_theta)] ]).

(** [Eigen::MatrixXd fu(const StateVector& x, const ControlVector& u)]: the
    control is not read. *)
Definition fu (x u : Vec) : result Mat :=
  theta <- coeff x 1 ;;
  xdot <- coeff x 2 ;;
  tdot <- coeff x 3 ;;
  let sin_theta := sin theta in
  let cos_theta := cos theta in
  Ok (of_rows 4 1
    [ [0]; [0];
      [1 / (m_c + m_p * sin_theta * sin_theta)];
      [(- cos_theta) / (l * m_c + l * m_p * sin_theta * sin_theta)] ]).


(** [Eigen::VectorXd StateDelta(const StateVector& x_1, const StateVector& x_2)] *)
Definition StateDelta (x_1 x_2 : Vec) : result Vec :=
  diff <- vsub x_1 x_2 ;;
  Ok diff.

End Dynamics.

End Cartpole.

(** ** PinocchioDynamicsSolver *)

Module Pinocchio.

(** [ArgumentPosition], of exotica and of the engine alike. *)
Inductive ArgumentPosition : Type := ARG0 | ARG1 | ARG2 | ARG3 | ARG4.

Definition ArgumentPosition_eqb (a b : ArgumentPosition) : bool :=
  match a, b with
  | ARG0, ARG0 | ARG1, ARG1 | ARG2, ARG2 | ARG3, ARG3 | ARG4, ARG4 => true
  | _, _ => false
  end.

(** The articulated-body engine (the [pinocchio] namespace), at its boundary.
    An output argument that is a vector or a block handed over by the solver
    is returned as the coefficients the engine leaves in it; the two routines
    that receive blocks of the solver's own buffers also see what those blocks
    hold ([computeABADerivatives], [dDifference]). [Data] is the engine's
    workspace, read and written by its algorithms. *)
Class Engine : Type := {
  Model : Type;
  Data : Type;
  URDF : Type;
  nq : Model -> nat;
  nv : Model -> nat;
  (** [urdf::buildModel(urdf, model, verbose)] *)
  buildModel : URDF -> Model -> Model;
  (** [Data(model)] *)
  newData : Model -> Data;
  (** [data.ddq] *)
  ddq : Data -> Vec;
  (** [aba(model, data, q, v, tau)] *)
  aba : Model -> Data -> Vec -> Vec -> Vec -> Data;
  (** [computeABADerivatives(model, data, q, v, tau, ddq_dq, ddq_dv, ddq_dtau)] *)
  computeABADerivatives :
    Model -> Data -> Vec -> Vec -> Vec -> Mat -> Mat -> Mat ->
    Data * ((nat -> nat -> R) * (nat -> nat -> R) * (nat -> nat -> R));
  (** [rnea(model, data, q, v, a)] *)
  rnea : Model -> Data -> Vec -> Vec -> Vec -> Data * Vec;
  (** [difference(model, q0, q1, dvout)] *)
  difference : Model -> Vec -> Vec -> nat -> R;
  (** [dDifference(model, q0, q1, J, arg)] *)
  dDifference : Model -> Vec -> Vec -> Mat -> ArgumentPosition -> nat -> nat -> R;
  (** [integrate(model, q, v, qout)] *)
  integrate : Model -> Vec -> Vec -> nat -> R
}.

Section Solver.

Context {E : Engine}.

(** What a vector holds that was sized and not yet written
    ([Eigen::VectorXd dx(n)]). *)
Variable uninitialized : nat -> R.

(** The members. The three sizes are the [int] members of the base class
    (they hold sizes, hence [nat]); [dt_] is the step of the base class. *)
Record PinocchioDynamicsSolver : Type := mkSolver {
  num_positions_ : nat;
  num_velocities_ : nat;
  num_controls_ : nat;
  dt_ : R;
  model_ : Model;
  pinocchio_data_ : option Data;
  xdot_analytic_ : Vec;
  fx_ : Mat;
  fu_ : Mat
}.

Definition set_num_positions (n : nat) (s : PinocchioDynamicsSolver) :=
  mkSolver n (num_velocities_ s) (num_controls_ s) (dt_ s) (model_ s)
           (pinocchio_data_ s) (xdot_analytic_ s) (fx_ s) (fu_ s).
Definition set_num_velocities (n : nat) (s : PinocchioDynamicsSolver) :=
  mkSolver (num_positions_ s) n (num_controls_ s) (dt_ s) (model_ s)
           (pinocchio_data_ s) (xdot_analytic_ s) (fx_ s) (fu_ s).
Definition set_num_controls (n : nat) (s : PinocchioDynamicsSolver) :=
  mkSolver (num_positions_ s) (num_velocities_ s) n (dt_ s) (model_ s)
           (pinocchio_data_ s) (xdot_analytic_ s) (fx_ s) (fu_ s).
Definition set_model (m : Model) (s : PinocchioDynamicsSolver) :=
  mkSolver (num_positions_ s) (num_velocities_ s) (num_controls_ s) (dt_ s) m
           (pinocchio_data_ s) (xdot_analytic_ s) (fx_ s) (fu_ s).
Definition set_data (d : option Data) (s : PinocchioDynamicsSolver) :=
  mkSolver (num_positions_ s) (num_velocities_ s) (num_controls_ s) (dt_ s)
           (model_ s) d (xdot_analytic_ s) (fx_ s) (fu_ s).
Definition set_xdot_analytic (v : Vec) (s : PinocchioDynamicsSolver) :=
  mkSolver (num_positions_ s) (num_velocities_ s) (num_controls_ s) (dt_ s)
           (model_ s) (pinocchio_data_ s) v (fx_ s) (fu_ s).
Definition set_fx (m : Mat) (s : PinocchioDynamicsSolver) :=
  mkSolver (num_positions_ s) (num_velocities_ s) (num_controls_ s) (dt_ s)
           (model_ s) (pinocchio_data_ s) (xdot_analytic_ s) m (fu_ s).
Definition set_fu (m : Mat) (s : PinocchioDynamicsSolver) :=
  mkSolver (num_positions_ s) (num_velocities_ s) (num_controls_ s) (dt_ s)
           (model_ s) (pinocchio_data_ s) (xdot_analytic_ s) (fx_ s) m.

(** [*pinocchio_data_] *)
Definition deref (p : option Data) : result Data :=
  match p with
  | Some d => Ok d
  | None => Abort
  end.

(** Modelled from the spec: [get_num_state_derivative()] of the base class,
    whose definition is not among these sources; the size of the tangent
    space is [ndx = 2 * num_velocities]. *)
Definition get_num_state_derivative (s : PinocchioDynamicsSolver) : nat :=
  (2 * num_velocities_ s)%nat.

(** [void AssignScene(ScenePtr scene_in)] *)
Definition AssignScene (scene_in : Scene URDF) : M PinocchioDynamicsSolver unit :=
  (if BaseType_eqb (ControlledBaseType scene_in) FIXED
   then modify (fun s => set_model (buildModel (getURDF scene_in) (model_ s)) s)
   else lift (Throw "This condition should never happen. Unknown BaseType.")) ;;;
  modify (fun s => set_num_positions (nq (model_ s)) s) ;;;
  modify (fun s => set_num_velocities (nv (model_ s)) s) ;;;
  modify (fun s => set_num_controls (nv (model_ s)) s) ;;;
  modify (fun s => set_data (Some (newData (model_ s))) s) ;;;
  s <~ get ;;
  let ndx := get_num_state_derivative s in
  modify (set_xdot_analytic (vZero ndx)) ;;;
  modify (set_fx (mZero ndx ndx)) ;;;
  s <~ get ;;
  b <~ lift (topRightCorner (fx_ s) (num_velocities_ s) (num_velocities_ s)) ;;
  modify (set_fx (setIdentity (fx_ s) b)) ;;;
  s <~ get ;;
  modify (set_fu (mZero ndx (num_controls_ s))).

(** [Eigen::VectorXd f(const StateVector& x, const ControlVector& u)] *)
Definition f (x u : Vec) : M PinocchioDynamicsSolver Vec :=
  s <~ get ;;
  data <~ lift (deref (pinocchio_data_ s)) ;;
  q <~ lift (head (num_positions_ s) x) ;;
  v <~ lift (tail (num_velocities_ s) x) ;;
  modify (set_data (Some (aba (model_ s) data q v u))) ;;;
  s <~ get ;;
  xt <~ lift (tail (num_velocities_ s) x) ;;
  xd <~ lift (assign_head (num_velocities_ s) (xdot_analytic_ s) xt) ;;
  modify (set_xdot_analytic xd) ;;;
  s <~ get ;;
  data <~ lift (deref (pinocchio_data_ s)) ;;
  xd <~ lift (assign_tail (num_velocities_ s) (xdot_analytic_ s) (ddq data)) ;;
  modify (set_xdot_analytic xd) ;;;
  s <~ get ;;
  mret (xdot_analytic_ s).

(** [void ComputeDerivatives(const StateVector& x, const ControlVector& u)]:
    the one call of the engine's derivative routine on two blocks of [fx_]
    and one of [fu_]. *)
Definition ComputeDerivatives (x u : Vec) : M PinocchioDynamicsSolver unit :=
  s <~ get ;;
  data <~ lift (deref (pinocchio_data_ s)) ;;
  q <~ lift (head (num_positions_ s) x) ;;
  v <~ lift (tail (num_velocities_ s) x) ;;
  let n := num_velocities_ s in
  ddq_dq <~ lift (block (fx_ s) n 0 n n) ;;
  ddq_dv <~ lift (block (fx_ s) n n n n) ;;
  ddq_dtau <~ lift (bottomRightCorner (fu_ s) n n) ;;
  let '(data', (dq, dv, dtau)) :=
    computeABADerivatives (model_ s) data q v u
      (read (fx_ s) ddq_dq) (read (fx_ s) ddq_dv) (read (fu_ s) ddq_dtau) in
  modify (set_data (Some data')) ;;;
  modify (set_fx (write (write (fx_ s) ddq_dq dq) ddq_dv dv)) ;;;
  modify (set_fu (write (fu_ s) ddq_dtau dtau)).

(** [Eigen::MatrixXd fx(const StateVector& x, const ControlVector& u)]: the
    statement of [ComputeDerivatives], then the buffer. *)
Definition fx (x u : Vec) : M PinocchioDynamicsSolver Mat :=
  ComputeDerivatives x u ;;;
  s <~ get ;;
  mret (fx_ s).

(** [Eigen::MatrixXd fu(const StateVector& x, const ControlVector& u)]: the
    same statement again, then the other buffer. *)
Definition fu (x u : Vec) : M PinocchioDynamicsSolver Mat :=
  ComputeDerivatives x u ;;;
  s <~ get ;;
  mret (fu_ s).

(** [Eigen::VectorXd InverseDynamics(const StateVector& x)] *)
Definition InverseDynamics (x : Vec) : M PinocchioDynamicsSolver Vec :=
  s <~ get ;;
  data <~ lift (deref (pinocchio_data_ s)) ;;
  q <~ lift (head (num_positions_ s) x) ;;
  v <~ lift (tail (num_velocities_ s) x) ;;
  let '(data', u) := rnea (model_ s) data q v (vZero (num_velocities_ s)) in
  modify (set_data (Some data')) ;;;
  mret u.

Definition wrong_size (s : PinocchioDynamicsSolver) (x_1 x_2 : Vec) : bool :=
  negb (size x_1 =? num_positions_ s + num_velocities_ s) ||
  negb (size x_2 =? num_positions_ s + num_velocities_ s).

(** [Eigen::VectorXd StateDelta(const StateVector& x_1, const StateVector& x_2)] *)
Definition StateDelta (s : PinocchioDynamicsSolver) (x_1 x_2 : Vec) : result Vec :=
  if wrong_size s x_1 x_2
  then Throw "x_1 or x_2 do not have correct size"
  else
    let dx := vec_init (2 * num_velocities_ s) uninitialized in
    q2 <- head (num_positions_ s) x_2 ;;
    q1 <- head (num_positions_ s) x_1 ;;
    dx <- fill_head (num_velocities_ s) dx (difference (model_ s) q2 q1) ;;
    v1 <- tail (num_velocities_ s) x_1 ;;
    v2 <- tail (num_velocities_ s) x_2 ;;
    dv <- vsub v1 v2 ;;
    dx <- assign_tail (num_velocities_ s) dx dv ;;
    Ok dx.

(** [Eigen::MatrixXd dStateDelta(const StateVector& x_1, const StateVector& x_2,
    const ArgumentPosition first_or_second)] *)
Definition dStateDelta (s : PinocchioDynamicsSolver) (x_1 x_2 : Vec)
    (first_or_second : ArgumentPosition) : result Mat :=
  if wrong_size s x_1 x_2
  then Throw "x_1 or x_2 do not have correct size"
  else if negb (ArgumentPosition_eqb first_or_second ARG0) &&
          negb (ArgumentPosition_eqb first_or_second ARG1)
  then Throw "Can only take derivative w.r.t. x_1 or x_2, i.e., ARG0 or ARG1."
  else
    let n := num_velocities_ s in
    let J := mIdentity (2 * n) (2 * n) in
    if ArgumentPosition_eqb first_or_second ARG0
    then
      q2 <- head (num_positions_ s) x_2 ;;
      q1 <- head (num_positions_ s) x_1 ;;
      tl <- topLeftCorner J n n ;;
      let J := write J tl (dDifference (model_ s) q2 q1 (read J tl) ARG1) in
      Ok J
    else
      q2 <- head (num_positions_ s) x_2 ;;
      q1 <- head (num_positions_ s) x_1 ;;
      tl <- topLeftCorner J n n ;;
      let J := write J tl (dDifference (model_ s) q2 q1 (read J tl) ARG0) in
      br <- bottomRightCorner J n n ;;
      let J := scale_in_place J br (-1.0) in
      Ok J.

(** [void Integrate(const StateVector& x, const StateVector& dx, const double dt,
    StateVector& xout)]: [xout] is the caller's, and is returned as the call
    leaves it. *)
Definition Integrate (s : PinocchioDynamicsSolver) (x dx : Vec) (dt : R)
    (xout : Vec) : result Vec :=
  let dx_times_dt := vscale dt dx in
  q <- head (num_positions_ s) x ;;
  v <- head (num_velocities_ s) dx_times_dt ;;
  xout <- fill_head (num_positions_ s) xout (integrate (model_ s) q v) ;;
  xv <- tail (num_velocities_ s) x ;;
  dv <- tail (num_velocities_ s) dx_times_dt ;;
  sum <- vadd xv dv ;;
  xout <- assign_tail (num_velocities_ s) xout sum ;;
  Ok xout.

(** [Eigen::VectorXd SimulateOneStep(const StateVector& x, const ControlVector& u)] *)
Definition SimulateOneStep (x u : Vec) : M PinocchioDynamicsSolver Vec :=
  s <~ get ;;
  let xout := vec_init (num_positions_ s + num_velocities_ s) uninitialized in
  dx <~ f x u ;;
  s <~ get ;;
  xout <~ lift (Integrate s x dx (dt_ s) xout) ;;
  mret xout.

(** A call of one of the three functions that share the buffers, its outcome,
    and a sequence of calls, which ends at the first one that fails. *)
Inductive call : Type :=
| Call_f (x u : Vec)
| Call_fx (x u : Vec)
| Call_fu (x u : Vec).

Inductive value : Type :=
| Vector (v : Vec)
| Matrix (m : Mat).

Definition exec (c : call) : M PinocchioDynamicsSolver value :=
  match c with
  | Call_f x u => v <~ f x u ;; mret (Vector v)
  | Call_fx x u => m <~ fx x u ;; mret (Matrix m)
  | Call_fu x u => m <~ fu x u ;; mret (Matrix m)
  end.

Fixpoint run (cs : list call) : M PinocchioDynamicsSolver unit :=
  match cs with
  | [] => mret tt
  | c :: cs' => exec c ;;; run cs'
  end.

End Solver.

End Pinocchio.

(** ** Property.h *)

Module Property.

Section Property.

(** The type of the value a property holds. *)
Variable T : Type.

(** [Property<T>]: the members of [PropertyElement], then the value. *)
Record Property : Type := mkProperty {
  isSet_ : bool;
  isRequired_ : bool;
  name_ : string;
  type_ : string;
  value_ : T
}.

(** [Property(type, name, isRequired, value)]; the base is built by
    [PropertyElement(isSet, isRequired, type, name)] with [isSet = true]. *)
Definition make (type name : string) (isRequired : bool) (value : T) : Property :=
  mkProperty true isRequired name type value.

(** [virtual void copyValues(const PropertyElement& other)]; [other] is cast
    to [Property<T>], and is taken here to be one. *)
Definition copyValues (p other : Property) : Property :=
  if isSet_ other
  then mkProperty (isSet_ p) (isRequired_ p) (name_ p) (type_ p) (value_ other)
  else p.

(** [void operator=(const T& val)] *)
Definition assign (p : Property) (val : T) : Property :=
  mkProperty true (isRequired_ p) (name_ p) (type_ p) val.

(** [const T getValue() const] and [operator T()] *)
Definition getValue (p : Property) : T := value_ p.

End Property.

Arguments mkProperty {T}.
Arguments isSet_ {T}.
Arguments isRequired_ {T}.
Arguments name_ {T}.
Arguments type_ {T}.
Arguments value_ {T}.
Arguments make {T}.
Arguments copyValues {T}.
Arguments assign {T}.
Arguments getValue {T}.

Section Instantiable.

(** The objects a [PropertyElement*] points to, whatever their value type,
    and [PropertyElement::operator=], which this header declares and does not
    define: [assign_element target source] is [target] after
    [target = source]. *)
Variable Element : Type.
Variable assign_element : Element -> Element -> Element.

(** Pointers to elements, and the elements they point to. *)
Definition ptr : Type := nat.
Definition Heap : Type := ptr -> Element.

Definition store (h : Heap) (p : ptr) (e : Element) : Heap :=
  fun p' => if (p' =? p)%nat then e else h p'.

(** [PropertyContainer]: [properties_] is the [std::map] in the order of its
    keys, each key once; [propertiesOrdered_] points to the same elements. *)
Record PropertyContainer : Type := mkContainer {
  container_name_ : string;
  properties_ : list (string * ptr);
  propertiesOrdered_ : list ptr
}.

(** [std::string getName() const] *)
Definition getName (c : PropertyContainer) : string := container_name_ c.

(** [m.find(k)]: the element under the key, or [None] for [m.end()]. *)
Fixpoint find (k : string) (m : list (string * ptr)) : option ptr :=
  match m with
  | [] => None
  | (k', p) :: m' => if String.eqb k k' then Some p else find k m'
  end.

(** The instantiated object has a state of its own, [Obj], that the pure
    virtual [InstantiateBase] and [Instantiate] write; [C], the class of its
    initialiser, gives [C::getContainerName()] and the construction [C tmp]
    of a container with fresh elements. *)
Variable Obj : Type.
Variable InstantiateBase : PropertyContainer -> M (Heap * Obj) unit.
Variable Instantiate : PropertyContainer -> M (Heap * Obj) unit.
Variable getContainerName : string.
Variable new_C : Heap -> PropertyContainer * Heap.

(** The loop of [InstantiateInternal] over the remaining entries of
    [tmp.getProperties()]; [tmp.getProperties()[param.first]] is the entry
    under iteration. *)
Fixpoint copy_properties (init : PropertyContainer) (params : list (string * ptr))
  : M (Heap * Obj) unit :=
  match params with
  | [] => mret tt
  | (k, p) :: params' =>
      match find k (properties_ init) with
      | Some q =>
          modify (fun st : Heap * Obj =>
                    (store (fst st) p (assign_element (fst st p) (fst st q)), snd st)) ;;;
          copy_properties init params'
      | None => lift (Throw "Combining incompatible initializers!")
      end
  end.

(** [virtual void InstantiateInternal(const PropertyContainer& init)] *)
Definition InstantiateInternal (init : PropertyContainer) : M (Heap * Obj) unit :=
  InstantiateBase init ;;;
  if String.eqb (getName init) getContainerName
  then Instantiate init
  else
    st <~ get ;;
    let '(tmp, h) := new_C (fst st) in
    modify (fun st : Heap * Obj => (h, snd st)) ;;;
    copy_properties init (properties_ tmp) ;;;
    Instantiate tmp.

(** Every key of [params] is a key of [init]. *)
Definition all_found (init : PropertyContainer) (params : list (string * ptr)) : bool :=
  forallb (fun kp => match find (fst kp) (properties_ init) with
                     | Some _ => true
                     | None => false
                     end) params.

End Instantiable.

End Property.

(** * Vocabulary of the statements *)

(** The first vector of the standard basis of the cart-pole's state space. *)
Definition e0 : Vec := [1; 0; 0; 0].

(** [v] with its coefficient [j] replaced by [t]. *)
Fixpoint replace_at (j : nat) (t : R) (v : Vec) : Vec :=
  match v, j with
  | [], _ => []
  | _ :: v', O => t :: v'
  | a :: v', S j' => a :: replace_at j' t v'
  end.

(** Coefficient [i] of the vector a call returns. *)
Definition component (r : result Vec) (i : nat) : R :=
  match r with
  | Ok v => nth i v 0
  | _ => 0
  end.

(** The parameters of a cart-pole: masses and a length. *)
Definition physical (s : Cartpole.CartpoleDynamicsSolver) : Prop :=
  0 < Cartpole.m_c s /\ 0 <= Cartpole.m_p s /\ 0 < Cartpole.l s.

(** An engine with a Euclidean configuration space, used for the concrete
    instances below: [n] unit masses, each on its own prismatic joint,
    without gravity. Configurations and velocities both have [n]
    coordinates, the acceleration is the applied force, the difference of
    two configurations is their coordinatewise difference and integration is
    coordinatewise addition. *)
Module Euclid.

Definition at_ (v : Vec) (i : nat) : R := nth i v 0.

Definition engine : Pinocchio.Engine :=
  {| Pinocchio.Model := nat;
     Pinocchio.Data := Vec;
     Pinocchio.URDF := nat;
     Pinocchio.nq := fun n => n;
     Pinocchio.nv := fun n => n;
     Pinocchio.buildModel := fun urdf model => (model + urdf)%nat;
     Pinocchio.newData := fun n => vZero n;
     Pinocchio.ddq := fun data => data;
     Pinocchio.aba := fun n _ _ _ tau => vec_init n (at_ tau);
     Pinocchio.computeABADerivatives := fun n _ _ _ tau _ _ _ =>
       (vec_init n (at_ tau), (fun _ _ => 0, fun _ _ => 0, kron));
     Pinocchio.rnea := fun n data _ _ a => (data, vec_init n (at_ a));
     Pinocchio.difference := fun _ q0 q1 i => at_ q1 i - at_ q0 i;
     Pinocchio.dDifference := fun _ _ _ _ arg i j =>
       match arg with
       | Pinocchio.ARG0 => - kron i j
       | _ => kron i j
       end;
     Pinocchio.integrate := fun _ q v i => at_ q i + at_ v i |}.

(** Storage that was never written holds anything; here, 7. *)
Definition junk : nat -> R := fun _ => 7.

(** A solver as it is before it is bound, and a scene with one joint. *)
Definition fresh : Pinocchio.PinocchioDynamicsSolver (E := engine) :=
  Pinocchio.mkSolver (E := engine) 0 0 0 0.01 0%nat None [] (mZero 0 0) (mZero 0 0).

Definition one_joint : Scene nat := mkScene 1%Z FIXED 1%nat.

Definition bound1 : Pinocchio.PinocchioDynamicsSolver (E := engine) :=
  snd (Pinocchio.AssignScene (E := engine) one_joint fresh).

End Euclid.

Section PinocchioVocabulary.

Context {E : Pinocchio.Engine}.

Import Pinocchio.

(** The top half of [fx_] and of [fu_] as [AssignScene] leaves them: zero,
    then the identity; and zero. *)
Definition fx_top (n : nat) (fx : Mat) : Prop :=
  forall i j, (i < n)%nat -> (j < 2 * n)%nat ->
    mcoeff fx i j = if (n <=? j)%nat then kron i (j - n) else 0.

Definition fu_top (n : nat) (fu : Mat) : Prop :=
  forall i j, (i < n)%nat -> (j < n)%nat -> mcoeff fu i j = 0.

(** A solver bound to the model [m]: what [AssignScene] establishes and the
    calls of [f], [fx] and [fu] keep. *)
Record bound (m : Model) (s : PinocchioDynamicsSolver) : Prop := mkBound {
  bound_model : model_ s = m;
  bound_positions : num_positions_ s = nq m;
  bound_velocities : num_velocities_ s = nv m;
  bound_controls : num_controls_ s = nv m;
  bound_data : exists d, pinocchio_data_ s = Some d;
  bound_xdot : length (xdot_analytic_ s) = (2 * nv m)%nat;
  bound_fx_rows : rows (fx_ s) = (2 * nv m)%nat;
  bound_fx_cols : cols (fx_ s) = (2 * nv m)%nat;
  bound_fx_top : fx_top (nv m) (fx_ s);
  bound_fu_rows : rows (fu_ s) = (2 * nv m)%nat;
  bound_fu_cols : cols (fu_ s) = nv m;
  bound_fu_top : fu_top (nv m) (fu_ s)
}.

(** The solver [AssignScene] leaves when the base is fixed. *)
Definition after_AssignScene (scene_in : Scene URDF) (s : PinocchioDynamicsSolver)
  : PinocchioDynamicsSolver :=
  let m := buildModel (getURDF scene_in) (model_ s) in
  let n := nv m in
  mkSolver (nq m) n n (dt_ s) m (Some (newData m)) (vZero (2 * n))
    (setIdentity (mZero (2 * n) (2 * n)) (mkBlock 0 (2 * n - n) n n))
    (mZero (2 * n) n).

(** The three blocks the derivative routine of the engine writes: the lower
    two quarters of [fx_] and the lower half of [fu_]. *)
Definition dq_block (n : nat) : Block := mkBlock n 0 n n.
Definition dv_block (n : nat) : Block := mkBlock n n n n.
Definition dtau_block (n : nat) : Block := mkBlock (2 * n - n) (n - n) n n.

(** The engine's forward dynamics and its derivatives are functions of the
    model and of [(q, v, tau)]: neither the workspace nor what the output
    blocks held before is read. *)
Definition engine_stateless : Prop :=
  (forall m d d' q v tau, ddq (aba m d q v tau) = ddq (aba m d' q v tau)) /\
  (forall m d d' q v tau A B C A' B' C' i j,
      (i < nv m)%nat -> (j < nv m)%nat ->
      let '(dq, dv, dtau) := snd (computeABADerivatives m d q v tau A B C) in
      let '(dq', dv', dtau') := snd (computeABADerivatives m d' q v tau A' B' C') in
      dq i j = dq' i j /\ dv i j = dv' i j /\ dtau i j = dtau' i j).

(** The acceleration the engine computes has one coordinate per velocity. *)
Definition engine_ddq_sized : Prop :=
  forall m d q v tau, length (ddq (aba m d q v tau)) = nv m.

(** Integrating the difference of two configurations from the first one
    gives the second one, up to the relation [sim] on configurations. *)
Definition engine_round_trip (sim : Vec -> Vec -> Prop) : Prop :=
  forall m q0 q1, length q0 = nq m -> length q1 = nq m ->
    sim (vec_init (nq m) (integrate m q0 (vec_init (nv m) (difference m q0 q1)))) q1.

(** [Integrate(x, StateDelta(a, b), 1)], for a state [xout] to write. *)
Definition Integrate_StateDelta (uninitialized : nat -> R)
    (s : PinocchioDynamicsSolver) (x a b xout : Vec) : result Vec :=
  d <- StateDelta uninitialized s a b ;;
  Integrate s x d 1 xout.

End PinocchioVocabulary.

Section PinocchioOperations.

Context {E : Pinocchio.Engine}.

Import Pinocchio.

Variable uninitialized : nat -> R.

(** Any member function that writes members of the solver, as a step of a
    history: the three of [call], and [ComputeDerivatives], [InverseDynamics]
    and [SimulateOneStep]. *)
Inductive operation : Type :=
| Op_call (c : call)
| Op_ComputeDerivatives (x u : Vec)
| Op_InverseDynamics (x : Vec)
| Op_SimulateOneStep (x u : Vec).

Definition perform (o : operation) : M PinocchioDynamicsSolver unit :=
  match o with
  | Op_call c => exec c ;;; mret tt
  | Op_ComputeDerivatives x u => ComputeDerivatives x u
  | Op_InverseDynamics x => InverseDynamics x ;;; mret tt
  | Op_SimulateOneStep x u => SimulateOneStep uninitialized x u ;;; mret tt
  end.

Fixpoint perform_all (os : list operation) : M PinocchioDynamicsSolver unit :=
  match os with
  | [] => mret tt
  | o :: os' => perform o ;;; perform_all os'
  end.

(** Integrating the zero tangent vector from a configuration gives the
    configuration itself. *)
Definition engine_integrate_zero : Prop :=
  forall m q, length q = nq m ->
    vec_init (nq m) (integrate m q (vZero (nv m))) = q.

(** The difference of a configuration with itself is zero. *)
Definition engine_difference_self : Prop :=
  forall m q i, length q = nq m -> (i < nv m)%nat -> difference m q q i = 0.

End PinocchioOperations.

(** Concrete inputs for the instances further below. *)
Module Samples.

Import Pinocchio.

(** A history that uses every operation. *)
Definition history : list operation :=
  [Op_call (Call_fx [0; 1] [2]); Op_InverseDynamics [3; 4];
   Op_SimulateOneStep [5; 6] [7]; Op_ComputeDerivatives [8; 9] [1];
   Op_call (Call_f [2; 3] [4])].

Definition used1 : PinocchioDynamicsSolver (E := Euclid.engine) :=
  snd (perform_all (E := Euclid.engine) Euclid.junk history
         (snd (AssignScene (E := Euclid.engine) Euclid.one_joint Euclid.fresh))).

(** A container class with the properties [a] and [b], an object that
    records the names of the containers it was instantiated from, and an
    initialiser of another name that has [a], [b] and one key more. *)
Definition new_AB (h : Property.Heap nat) : Property.PropertyContainer * Property.Heap nat :=
  (Property.mkContainer "C" [("a"%string, 10%nat); ("b"%string, 11%nat)] [10%nat; 11%nat], h).

Definition record_name (c : Property.PropertyContainer)
  : M (Property.Heap nat * list string) unit :=
  modify (fun st => (fst st, Property.getName c :: snd st)).

Definition init_D : Property.PropertyContainer :=
  Property.mkContainer "D"
    [("a"%string, 0%nat); ("b"%string, 1%nat); ("z"%string, 2%nat)] [0%nat; 1%nat; 2%nat].

End Samples.

(** * Properties *)

(** ** Matrices built from their coefficients *)

Lemma map_seq_ext (A : Type) (g h : nat -> A) (n a : nat) :
  (forall i, (a <= i < a + n)%nat -> g i = h i) ->
  map g (seq a n) = map h (seq a n).
Proof.
  intros H. apply map_ext_in. intros i Hi.
  apply in_seq in Hi. apply H. exact Hi.
Qed.

Lemma nth_map_seq (A : Type) (g : nat -> A) (n i : nat) (d : A) :
  (i < n)%nat -> nth i (map g (seq 0 n)) d = g i.
Proof.
  intros Hi.
  rewrite (nth_indep _ d (g 0%nat)) by (rewrite length_map, length_seq; exact Hi).
  rewrite (map_nth g (seq 0 n) 0%nat i).
  rewrite seq_nth by exact Hi. reflexivity.
Qed.

Lemma mcoeff_mat_init (r c : nat) (g : nat -> nat -> R) (i j : nat) :
  (i < r)%nat -> (j < c)%nat -> mcoeff (mat_init r c g) i j = g i j.
Proof.
  intros Hi Hj. unfold mcoeff, mat_init. cbn [entries].
  rewrite (nth_map_seq _ (fun i => map (g i) (seq 0 c)) r i []) by exact Hi.
  apply nth_map_seq. exact Hj.
Qed.

Lemma mat_init_ext (r c : nat) (g h : nat -> nat -> R) :
  (forall i j, (i < r)%nat -> (j < c)%nat -> g i j = h i j) ->
  mat_init r c g = mat_init r c h.
Proof.
  intros H. unfold mat_init. f_equal.
  apply map_seq_ext. intros i Hi.
  apply map_seq_ext. intros j Hj.
  apply H; lia.
Qed.

Lemma mcoeff_write (m : Mat) (b : Block) (g : nat -> nat -> R) (i j : nat) :
  (i < rows m)%nat -> (j < cols m)%nat ->
  mcoeff (write m b g) i j =
  if inside b i j then g (i - row0 b)%nat (j - col0 b)%nat else mcoeff m i j.
Proof.
  intros Hi Hj. unfold write.
  rewrite mcoeff_mat_init by assumption. reflexivity.
Qed.

Lemma mcoeff_read (m : Mat) (b : Block) (i j : nat) :
  (i < height b)%nat -> (j < width b)%nat ->
  mcoeff (read m b) i j = mcoeff m (row0 b + i) (col0 b + j).
Proof.
  intros Hi Hj. unfold read.
  rewrite mcoeff_mat_init by assumption. reflexivity.
Qed.

(** ** Vectors, blocks and sizes *)

Lemma leb_true (a b : nat) : (a <= b)%nat -> (a <=? b)%nat = true.
Proof. intros H. apply Nat.leb_le. exact H. Qed.

Lemma length_tail (n : nat) (x v : Vec) : tail n x = Ok v -> length v = n.
Proof.
  unfold tail. destruct (Nat.leb_spec n (length x)) as [Hle | Hlt]; [ | discriminate].
  intros [= <-]. rewrite length_skipn. lia.
Qed.

Lemma length_head (n : nat) (x q : Vec) : head n x = Ok q -> length q = n.
Proof.
  unfold head. destruct (Nat.leb_spec n (length x)) as [Hle | Hlt]; [ | discriminate].
  intros [= <-]. apply firstn_length_le. exact Hle.
Qed.

Lemma firstn_app_exact (v w : Vec) (n : nat) : n = length v -> firstn n (v ++ w) = v.
Proof.
  intros ->. rewrite firstn_app, Nat.sub_diag, firstn_all. cbn. apply app_nil_r.
Qed.

Lemma head_tail_cases (a b : nat) (x : Vec) :
  (exists q v, head a x = Ok q /\ tail b x = Ok v) \/
  (length x < a \/ length x < b)%nat.
Proof.
  unfold head, tail.
  destruct (Nat.leb_spec a (length x)) as [Ha | Ha]; [ | right; lia].
  destruct (Nat.leb_spec b (length x)) as [Hb | Hb]; [ | right; lia].
  left. eauto.
Qed.

Lemma inside_below (b : Block) (i j : nat) :
  (i < row0 b)%nat -> inside b i j = false.
Proof.
  intros Hi. unfold inside.
  replace (row0 b <=? i)%nat with false by (symmetry; apply Nat.leb_gt; exact Hi).
  reflexivity.
Qed.

Lemma inside_spec (b : Block) (i j : nat) :
  inside b i j = true <->
  (row0 b <= i < row0 b + height b /\ col0 b <= j < col0 b + width b)%nat.
Proof.
  unfold inside. rewrite !andb_true_iff, !Nat.leb_le, !Nat.ltb_lt. lia.
Qed.

Lemma write_ext (m m' : Mat) (b : Block) (g g' : nat -> nat -> R) :
  rows m = rows m' -> cols m = cols m' ->
  (forall i j, (i < rows m)%nat -> (j < cols m)%nat ->
     (if inside b i j then g (i - row0 b)%nat (j - col0 b)%nat else mcoeff m i j) =
     (if inside b i j then g' (i - row0 b)%nat (j - col0 b)%nat else mcoeff m' i j)) ->
  write m b g = write m' b g'.
Proof.
  intros Hr Hc H. unfold write. rewrite <- Hr, <- Hc.
  apply mat_init_ext. exact H.
Qed.

Lemma rows_write (m : Mat) (b : Block) (g : nat -> nat -> R) :
  rows (write m b g) = rows m.
Proof. reflexivity. Qed.

Lemma cols_write (m : Mat) (b : Block) (g : nat -> nat -> R) :
  cols (write m b g) = cols m.
Proof. reflexivity. Qed.

Lemma rows_mIdentity (r c : nat) : rows (mIdentity r c) = r.
Proof. reflexivity. Qed.

Lemma cols_mIdentity (r c : nat) : cols (mIdentity r c) = c.
Proof. reflexivity. Qed.

Lemma kron_shift (n i j : nat) : kron (n + i) (n + j) = kron i j.
Proof.
  unfold kron.
  destruct (Nat.eqb_spec i j) as [-> | Hne].
  - rewrite Nat.eqb_refl. reflexivity.
  - replace (n + i =? n + j)%nat with false; [reflexivity | ].
    symmetry. apply Nat.eqb_neq. lia.
Qed.

Lemma read_top_left_identity (n : nat) :
  read (mIdentity (2 * n) (2 * n)) (mkBlock 0 0 n n) = mIdentity n n.
Proof.
  unfold read, mIdentity at 2. cbn [row0 col0 height width].
  apply mat_init_ext. intros i j Hi Hj.
  unfold mIdentity. rewrite mcoeff_mat_init by lia. reflexivity.
Qed.

Lemma head_long_enough (n : nat) (x : Vec) :
  (n <= length x)%nat -> head n x = Ok (firstn n x).
Proof. intros H. unfold head. rewrite leb_true by exact H. reflexivity. Qed.

Lemma tail_long_enough (n : nat) (x : Vec) :
  (n <= length x)%nat -> tail n x = Ok (skipn (length x - n) x).
Proof. intros H. unfold tail. rewrite leb_true by exact H. reflexivity. Qed.

Lemma length_vec_init (n : nat) (g : nat -> R) : length (vec_init n g) = n.
Proof. unfold vec_init. rewrite length_map, length_seq. reflexivity. Qed.

Lemma length_zipWith (op : R -> R -> R) (a b : Vec) :
  length a = length b -> length (zipWith op a b) = length a.
Proof.
  revert b. induction a as [ | x a IH]; intros [ | y b] H; try discriminate H.
  - reflexivity.
  - cbn. f_equal. apply IH. injection H as H. exact H.
Qed.

Lemma vscale_1 (v : Vec) : vscale 1 v = v.
Proof.
  unfold vscale. induction v as [ | x v IH]; [reflexivity | ].
  cbn. rewrite IH, Rmult_1_l. reflexivity.
Qed.

Lemma zipWith_plus_minus (a b : Vec) :
  length a = length b -> zipWith Rplus b (zipWith Rminus a b) = a.
Proof.
  revert b. induction a as [ | x a IH]; intros [ | y b] H; try discriminate H.
  - reflexivity.
  - cbn. injection H as H. rewrite (IH b H). f_equal. ring.
Qed.

Lemma skipn_app_exact (v w : Vec) (n : nat) : n = length v -> skipn n (v ++ w) = w.
Proof.
  intros ->. rewrite skipn_app, Nat.sub_diag, skipn_all. reflexivity.
Qed.

Lemma fill_head_ok (n : nat) (v : Vec) (g : nat -> R) :
  (n <= length v)%nat -> fill_head n v g = Ok (vec_init n g ++ skipn n v).
Proof. intros H. unfold fill_head. rewrite leb_true by exact H. reflexivity. Qed.

Lemma assign_tail_ok (n : nat) (v w : Vec) :
  (n <= length v)%nat -> length w = n ->
  assign_tail n v w = Ok (firstn (length v - n) v ++ w).
Proof.
  intros H Hw. unfold assign_tail.
  rewrite leb_true by exact H. rewrite Hw, Nat.eqb_refl. reflexivity.
Qed.

Lemma vsub_ok (a b : Vec) :
  length a = length b -> vsub a b = Ok (zipWith Rminus a b).
Proof. intros H. unfold vsub. rewrite H, Nat.eqb_refl. reflexivity. Qed.

Lemma vadd_ok (a b : Vec) :
  length a = length b -> vadd a b = Ok (zipWith Rplus a b).
Proof. intros H. unfold vadd. rewrite H, Nat.eqb_refl. reflexivity. Qed.

(** ** The cart-pole *)

(** C6. With [m_c = 1], [m_p = 0.1], [l = 0.5], [g = 9.81], the pole upright
    ([x = (0, pi, 0, 0)]) and no force ([u = (0)]), [f] returns the zero
    vector: over the reals, exactly. *)
Theorem cartpole_f_upright_equilibrium :
  Cartpole.f (Cartpole.new 1 0.1 0.5 9.81) [0; PI; 0; 0] [0] = Ok [0; 0; 0; 0].
Proof.
  unfold Cartpole.f, Cartpole.new. cbn.
  rewrite sin_PI, cos_PI.
  repeat f_equal; unfold Rdiv; apply Rmult_eq_0_compat_r; lra.
Qed.

(** The same state is an equilibrium whatever the four constants are. *)
Lemma cartpole_f_upright_any_constants (m_c m_p l g : R) :
  Cartpole.f (Cartpole.new m_c m_p l g) [0; PI; 0; 0] [0] = Ok [0; 0; 0; 0].
Proof.
  unfold Cartpole.f, Cartpole.new. cbn.
  rewrite sin_PI, cos_PI.
  repeat f_equal; unfold Rdiv; apply Rmult_eq_0_compat_r; ring.
Qed.

(** C7. On a freshly constructed cart-pole solver, [AssignScene] throws
    exactly when the scene reports a number of controlled joints other than
    2, and returns exactly when it reports 2; it writes no member, and the
    sizes are those of the constructor: 2 positions, 2 velocities, 1
    control. *)
Theorem cartpole_AssignScene_two_joints
    (m_c m_p l g : R) (U : Type) (scene_in : Scene U) :
  let s := Cartpole.new m_c m_p l g in
  let r := fst (Cartpole.AssignScene scene_in s) in
  let s' := snd (Cartpole.AssignScene scene_in s) in
  ((exists msg, r = Throw msg) <-> NumControlledJoints scene_in <> 2%Z) /\
  (r = Ok tt <-> NumControlledJoints scene_in = 2%Z) /\
  s' = s /\
  Cartpole.num_positions_ s' = 2%nat /\
  Cartpole.num_velocities_ s' = 2%nat /\
  Cartpole.num_controls_ s' = 1%nat.
Proof.
  cbv zeta. unfold Cartpole.AssignScene.
  destruct (Z.eqb_spec (NumControlledJoints scene_in) 2) as [Heq | Hne]; cbn.
  - repeat split; try congruence.
    intros [msg Hmsg]. discriminate Hmsg.
  - repeat split; try congruence.
    intros _. eexists. reflexivity.
Qed.

(** Three controlled joints: the scenario of the specification. *)
Example cartpole_AssignScene_three_joints :
  fst (Cartpole.AssignScene (mkScene 3%Z FIXED tt) (Cartpole.new 1 0.1 0.5 9.81))
  = Throw "Robot model may not be a Cartpole.".
Proof. reflexivity. Qed.

(** Differentiation of the expressions of [f], one constructor at a time. *)
Section Derivatives.

Variables (f g : R -> R) (x a b : R).

Lemma D_const (c : R) : derivable_pt_lim (fun _ => c) x 0.
Proof. apply derivable_pt_lim_const. Qed.

Lemma D_id : derivable_pt_lim (fun t => t) x 1.
Proof. apply derivable_pt_lim_id. Qed.

Lemma D_plus :
  derivable_pt_lim f x a -> derivable_pt_lim g x b ->
  derivable_pt_lim (fun t => f t + g t) x (a + b).
Proof. intros Hf Hg. exact (derivable_pt_lim_plus f g x a b Hf Hg). Qed.

Lemma D_minus :
  derivable_pt_lim f x a -> derivable_pt_lim g x b ->
  derivable_pt_lim (fun t => f t - g t) x (a - b).
Proof. intros Hf Hg. exact (derivable_pt_lim_minus f g x a b Hf Hg). Qed.

Lemma D_opp :
  derivable_pt_lim f x a -> derivable_pt_lim (fun t => - f t) x (- a).
Proof. intros Hf. exact (derivable_pt_lim_opp f x a Hf). Qed.

Lemma D_mult :
  derivable_pt_lim f x a -> derivable_pt_lim g x b ->
  derivable_pt_lim (fun t => f t * g t) x (a * g x + f x * b).
Proof. intros Hf Hg. exact (derivable_pt_lim_mult f g x a b Hf Hg). Qed.

Lemma D_div :
  derivable_pt_lim f x a -> derivable_pt_lim g x b -> g x <> 0 ->
  derivable_pt_lim (fun t => f t / g t) x ((a * g x - b * f x) / Rsqr (g x)).
Proof. intros Hf Hg Hn. exact (derivable_pt_lim_div f g x a b Hf Hg Hn). Qed.

Lemma D_sin :
  derivable_pt_lim f x a ->
  derivable_pt_lim (fun t => sin (f t)) x (cos (f x) * a).
Proof.
  intros Hf.
  exact (derivable_pt_lim_comp f sin x a (cos (f x)) Hf
           (derivable_pt_lim_sin (f x))).
Qed.

Lemma D_cos :
  derivable_pt_lim f x a ->
  derivable_pt_lim (fun t => cos (f t)) x (- sin (f x) * a).
Proof.
  intros Hf.
  exact (derivable_pt_lim_comp f cos x a (- sin (f x)) Hf
           (derivable_pt_lim_cos (f x))).
Qed.

Lemma D_eq :
  derivable_pt_lim f x a -> a = b -> derivable_pt_lim f x b.
Proof. intros Hf <-. exact Hf. Qed.

End Derivatives.

Ltac differentiate :=
  first
    [ apply D_const
    | apply D_id
    | eapply D_plus; [differentiate | differentiate]
    | eapply D_minus; [differentiate | differentiate]
    | eapply D_opp; differentiate
    | eapply D_mult; [differentiate | differentiate]
    | eapply D_div; [differentiate | differentiate | ]
    | eapply D_sin; differentiate
    | eapply D_cos; differentiate ].

(** The two denominators of [f] do not vanish for a cart and a pole that
    have a mass and a length. *)
Lemma cartpole_denominators (s : Cartpole.CartpoleDynamicsSolver) (theta : R) :
  physical s ->
  Cartpole.m_c s + Cartpole.m_p s * sin theta * sin theta <> 0 /\
  Cartpole.l s * Cartpole.m_c s +
    Cartpole.l s * Cartpole.m_p s * sin theta * sin theta <> 0.
Proof.
  intros (Hc & Hp & Hl).
  pose proof (Rle_0_sqr (sin theta)) as Hs. unfold Rsqr in Hs.
  assert (Hd : 0 < Cartpole.m_c s + Cartpole.m_p s * sin theta * sin theta) by nra.
  split; [lra | ].
  replace (Cartpole.l s * Cartpole.m_c s +
           Cartpole.l s * Cartpole.m_p s * sin theta * sin theta)
    with (Cartpole.l s * (Cartpole.m_c s + Cartpole.m_p s * sin theta * sin theta))
    by ring.
  apply Rmult_integral_contrapositive_currified; lra.
Qed.

Ltac cartpole_entry :=
  cbn; eapply D_eq;
  [ differentiate; cbv beta; assumption
  | unfold Rsqr; cbv beta; try field; repeat split; assumption ].

(** C3. For a cart-pole whose masses and length are physical ([0 < m_c],
    [0 <= m_p], [0 < l]), at every state [x] and control [u]: [fx] returns a
    4 x 4 matrix whose entry [(i, j)] is the derivative of component [i] of
    [f] with respect to [x(j)], and [fu] a 4 x 1 matrix whose entry [i] is
    the derivative of component [i] of [f] with respect to [u(0)]. These
    are derivatives in the sense of analysis, not difference quotients. *)
Theorem cartpole_fx_fu_exact_derivatives
    (s : Cartpole.CartpoleDynamicsSolver) (x u : Vec) :
  physical s -> length x = 4%nat -> length u = 1%nat ->
  (exists J, Cartpole.fx s x u = Ok J /\ rows J = 4%nat /\ cols J = 4%nat /\
     forall i j, (i < 4)%nat -> (j < 4)%nat ->
       derivable_pt_lim
         (fun t => component (Cartpole.f s (replace_at j t x) u) i)
         (nth j x 0) (mcoeff J i j)) /\
  (exists B, Cartpole.fu s x u = Ok B /\ rows B = 4%nat /\ cols B = 1%nat /\
     forall i, (i < 4)%nat ->
       derivable_pt_lim
         (fun t => component (Cartpole.f s x (replace_at 0 t u)) i)
         (nth 0 u 0) (mcoeff B i 0)).
Proof.
  intros Hphys Hx Hu.
  destruct x as [|x0 [|x1 [|x2 [|x3 [|]]]]]; try discriminate Hx.
  destruct u as [|u0 [|]]; try discriminate Hu.
  destruct (cartpole_denominators s x1 Hphys) as [Hd Hd3].
  split.
  - eexists. split; [reflexivity | ]. split; [reflexivity | ]. split; [reflexivity | ].
    intros i j Hi Hj.
    destruct i as [|[|[|[|i]]]]; try lia;
      destruct j as [|[|[|[|j]]]]; try lia.
    all: try (cbn; eapply D_eq; [differentiate | reflexivity]).
    all: cartpole_entry.
  - eexists. split; [reflexivity | ]. split; [reflexivity | ]. split; [reflexivity | ].
    intros i Hi.
    destruct i as [|[|[|[|i]]]]; try lia.
    all: try (cbn; eapply D_eq; [differentiate | reflexivity]).
    all: cartpole_entry.
Qed.

Lemma cartpole_fx_fu_exact_derivatives_witness :
  let s := Cartpole.new 1 0.1 0.5 9.81 in
  let x := [0; 1; 0; 2] in
  let u := [3] in
  (exists J, Cartpole.fx s x u = Ok J /\ rows J = 4%nat /\ cols J = 4%nat /\
     forall i j, (i < 4)%nat -> (j < 4)%nat ->
       derivable_pt_lim
         (fun t => component (Cartpole.f s (replace_at j t x) u) i)
         (nth j x 0) (mcoeff J i j)) /\
  (exists B, Cartpole.fu s x u = Ok B /\ rows B = 4%nat /\ cols B = 1%nat /\
     forall i, (i < 4)%nat ->
       derivable_pt_lim
         (fun t => component (Cartpole.f s x (replace_at 0 t u)) i)
         (nth 0 u 0) (mcoeff B i 0)).
Proof.
  apply cartpole_fx_fu_exact_derivatives.
  - unfold physical. cbn. lra.
  - reflexivity.
  - reflexivity.
Defined.

(** C9. Moving the cart along its track changes nothing: for a state [x],
    a control [u] and a shift [d], [f], [fx] and [fu] return at
    [x + d * e0] what they return at [x]; and the first column of [fx] is
    zero. *)
Theorem cartpole_translation_invariant
    (s : Cartpole.CartpoleDynamicsSolver) (x u : Vec) (d : R) :
  length x = 4%nat ->
  exists x', vadd x (vscale d e0) = Ok x' /\
    Cartpole.f s x' u = Cartpole.f s x u /\
    Cartpole.fx s x' u = Cartpole.fx s x u /\
    Cartpole.fu s x' u = Cartpole.fu s x u /\
    forall J, Cartpole.fx s x u = Ok J ->
      forall i, (i < 4)%nat -> mcoeff J i 0 = 0.
Proof.
  intros Hx.
  destruct x as [|x0 [|x1 [|x2 [|x3 [|]]]]]; try discriminate Hx.
  eexists. split; [reflexivity | ].
  cbn [vscale e0 map zipWith].
  replace (x1 + d * 0) with x1 by ring.
  replace (x2 + d * 0) with x2 by ring.
  replace (x3 + d * 0) with x3 by ring.
  repeat split.
  intros J HJ i Hi.
  unfold Cartpole.fx in HJ. cbn in HJ.
  destruct u as [|u0 u']; cbn in HJ; [discriminate HJ | ].
  injection HJ as <-.
  destruct i as [|[|[|[|i]]]]; try lia; reflexivity.
Qed.

Lemma cartpole_translation_invariant_witness :
  exists x', vadd [0; PI; 0; 0] (vscale 5 e0) = Ok x' /\
    Cartpole.f (Cartpole.new 1 0.1 0.5 9.81) x' [0] =
      Cartpole.f (Cartpole.new 1 0.1 0.5 9.81) [0; PI; 0; 0] [0] /\
    Cartpole.fx (Cartpole.new 1 0.1 0.5 9.81) x' [0] =
      Cartpole.fx (Cartpole.new 1 0.1 0.5 9.81) [0; PI; 0; 0] [0] /\
    Cartpole.fu (Cartpole.new 1 0.1 0.5 9.81) x' [0] =
      Cartpole.fu (Cartpole.new 1 0.1 0.5 9.81) [0; PI; 0; 0] [0] /\
    forall J, Cartpole.fx (Cartpole.new 1 0.1 0.5 9.81) [0; PI; 0; 0] [0] = Ok J ->
      forall i, (i < 4)%nat -> mcoeff J i 0 = 0.
Proof.
  apply (cartpole_translation_invariant
           (Cartpole.new 1 0.1 0.5 9.81) [0; PI; 0; 0] [0] 5).
  reflexivity.
Defined.

(** The cart-pole's [StateDelta(x1, x2)] is the coordinatewise [x1 - x2]:
    added to [x2], it gives [x1] back. *)
Lemma cartpole_StateDelta_undone_by_addition (x1 x2 : Vec) :
  length x1 = length x2 ->
  exists d, Cartpole.StateDelta x1 x2 = Ok d /\ vadd x2 (vscale 1 d) = Ok x1.
Proof.
  intros Hl. unfold Cartpole.StateDelta.
  rewrite vsub_ok by exact Hl. cbn [rbind].
  eexists. split; [reflexivity | ].
  rewrite vscale_1, vadd_ok.
  - rewrite zipWith_plus_minus by exact Hl. reflexivity.
  - rewrite length_zipWith by exact Hl. symmetry. exact Hl.
Qed.

(** ** The articulated-body solver *)

Section PinocchioProps.

Context {E : Pinocchio.Engine}.

Import Pinocchio.

Variable uninitialized : nat -> R.

Lemma AssignScene_FIXED (scene_in : Scene URDF) (s : PinocchioDynamicsSolver) :
  ControlledBaseType scene_in = FIXED ->
  AssignScene scene_in s = (Ok tt, after_AssignScene scene_in s).
Proof.
  intros Hb. destruct s as [np nvl nc dt md dat xd bx bu].
  unfold AssignScene, after_AssignScene. rewrite Hb.
  lazy beta iota zeta delta
       [mbind modify lift get mret BaseType_eqb
        get_num_state_derivative set_fu set_fx set_xdot_analytic set_data
        set_num_controls set_num_velocities set_num_positions set_model
        num_positions_ num_velocities_ num_controls_ dt_ model_ pinocchio_data_
        xdot_analytic_ fx_ fu_ topRightCorner rows cols mZero mat_init].
  set (m := buildModel (getURDF scene_in) md).
  assert (Hle : (nv m <=? 2 * nv m)%nat = true) by (apply Nat.leb_le; lia).
  rewrite Hle. reflexivity.
Qed.

Lemma bound_after_AssignScene (scene_in : Scene URDF) (s : PinocchioDynamicsSolver) :
  bound (buildModel (getURDF scene_in) (model_ s)) (after_AssignScene scene_in s).
Proof.
  set (m := buildModel (getURDF scene_in) (model_ s)).
  unfold after_AssignScene. fold m.
  constructor; cbn [model_ num_positions_ num_velocities_ num_controls_
                    pinocchio_data_ xdot_analytic_ fx_ fu_]; try reflexivity.
  - eexists. reflexivity.
  - unfold vZero. apply repeat_length.
  - intros i j Hi Hj. unfold setIdentity.
    rewrite mcoeff_write by (cbn [rows cols mZero mat_init]; lia).
    unfold mZero at 1. rewrite mcoeff_mat_init by lia.
    unfold inside. cbn [row0 col0 height width].
    replace (2 * nv m - nv m)%nat with (nv m) by lia.
    destruct (Nat.leb_spec (nv m) j) as [Hle | Hlt].
    + replace (0 <=? i)%nat with true by (symmetry; apply leb_true; lia).
      replace (i <? 0 + nv m)%nat with true by (symmetry; apply Nat.ltb_lt; lia).
      replace (j <? nv m + nv m)%nat with true by (symmetry; apply Nat.ltb_lt; lia).
      cbn. rewrite Nat.sub_0_r. reflexivity.
    + rewrite !andb_false_r. reflexivity.
  - intros i j Hi Hj. unfold mZero. rewrite mcoeff_mat_init by lia. reflexivity.
Qed.

Lemma ComputeDerivatives_returns (m : Model) (s : PinocchioDynamicsSolver)
    (x u q v : Vec) (d d' : Data) (dq dv dtau : nat -> nat -> R) :
  bound m s -> pinocchio_data_ s = Some d ->
  head (nq m) x = Ok q -> tail (nv m) x = Ok v ->
  computeABADerivatives m d q v u
    (read (fx_ s) (dq_block (nv m))) (read (fx_ s) (dv_block (nv m)))
    (read (fu_ s) (dtau_block (nv m))) = (d', (dq, dv, dtau)) ->
  ComputeDerivatives x u s =
  (Ok tt,
   set_fu (write (fu_ s) (dtau_block (nv m)) dtau)
     (set_fx (write (write (fx_ s) (dq_block (nv m)) dq) (dv_block (nv m)) dv)
        (set_data (Some d') s))).
Proof.
  intros Hb Hd Hq Hv Hcall.
  destruct Hb as [Hm Hnq Hnv Hnc _ _ Hfr Hfc _ Hur Huc _].
  unfold ComputeDerivatives, mbind, lift, get, modify, mret.
  rewrite Hd, Hnq, Hnv, Hq, Hv, Hm. cbn [deref].
  unfold block, bottomRightCorner. rewrite Hfr, Hfc, Hur, Huc.
  rewrite !leb_true by lia. cbn [andb].
  fold (dq_block (nv m)) (dv_block (nv m)) (dtau_block (nv m)).
  rewrite Hcall. reflexivity.
Qed.

Lemma ComputeDerivatives_aborts (m : Model) (s : PinocchioDynamicsSolver)
    (x u : Vec) :
  bound m s ->
  (length x < nq m \/ length x < nv m)%nat ->
  ComputeDerivatives x u s = (Abort, s).
Proof.
  intros Hb Hshort.
  destruct Hb as [Hm Hnq Hnv Hnc [d Hd] _ _ _ _ _ _ _].
  unfold ComputeDerivatives, mbind, lift, get, modify, mret.
  rewrite Hd, Hnq, Hnv. cbn [deref]. unfold head, tail.
  destruct (Nat.leb_spec (nq m) (length x)) as [Hle | Hlt]; [ | reflexivity].
  destruct (Nat.leb_spec (nv m) (length x)) as [Hle' | Hlt']; [lia | reflexivity].
Qed.

(** What [f] does on a bound solver whose state argument is long enough. *)
Lemma f_runs (m : Model) (s : PinocchioDynamicsSolver)
    (x u q v : Vec) (d : Data) :
  bound m s -> pinocchio_data_ s = Some d ->
  head (nq m) x = Ok q -> tail (nv m) x = Ok v ->
  let d' := aba m d q v u in
  f x u s =
  if (length (ddq d') =? nv m)%nat
  then (Ok (v ++ ddq d'), set_xdot_analytic (v ++ ddq d') (set_data (Some d') s))
  else (Abort, set_xdot_analytic (v ++ skipn (nv m) (xdot_analytic_ s))
                 (set_data (Some d') s)).
Proof.
  intros Hb Hd Hq Hv d'.
  destruct Hb as [Hm Hnq Hnv Hnc _ Hxd _ _ _ _ _ _].
  pose proof (length_tail _ _ _ Hv) as Hlv.
  destruct s as [np nvl nc dt md dat xd bx bu].
  cbn [model_ num_positions_ num_velocities_ num_controls_ pinocchio_data_
       xdot_analytic_] in Hm, Hnq, Hnv, Hnc, Hd, Hxd.
  subst md np nvl nc dat.
  unfold f.
  lazy beta iota zeta delta
       [mbind modify lift get mret deref set_data set_xdot_analytic
        num_positions_ num_velocities_ num_controls_ dt_ model_ pinocchio_data_
        xdot_analytic_ fx_ fu_].
  rewrite Hq, Hv. fold d'.
  unfold assign_head. rewrite Hxd, Hlv, Nat.eqb_refl, leb_true by lia.
  lazy beta iota zeta delta [andb].
  unfold assign_tail.
  rewrite length_app, length_skipn, Hxd, Hlv, leb_true by lia.
  lazy beta iota zeta delta [andb].
  destruct (length (ddq d') =? nv m)%nat; [ | reflexivity].
  rewrite firstn_app_exact by lia. reflexivity.
Qed.

Lemma f_aborts (m : Model) (s : PinocchioDynamicsSolver) (x u : Vec) :
  bound m s ->
  (length x < nq m \/ length x < nv m)%nat ->
  f x u s = (Abort, s).
Proof.
  intros Hb Hshort.
  destruct Hb as [Hm Hnq Hnv Hnc [d Hd] _ _ _ _ _ _ _].
  unfold f, mbind, lift, get, modify, mret.
  rewrite Hd, Hnq, Hnv. cbn [deref]. unfold head, tail.
  destruct (Nat.leb_spec (nq m) (length x)) as [Hle | Hlt]; [ | reflexivity].
  destruct (Nat.leb_spec (nv m) (length x)) as [Hle' | Hlt']; [lia | reflexivity].
Qed.

Lemma bound_set_data (m : Model) (s : PinocchioDynamicsSolver) (d : Data) :
  bound m s -> bound m (set_data (Some d) s).
Proof.
  intros [Hm Hnq Hnv Hnc _ Hxd Hfr Hfc Hft Hur Huc Hut].
  constructor; cbn; try assumption. eexists. reflexivity.
Qed.

Lemma bound_set_xdot_analytic (m : Model) (s : PinocchioDynamicsSolver) (v : Vec) :
  length v = (2 * nv m)%nat -> bound m s -> bound m (set_xdot_analytic v s).
Proof.
  intros Hv [Hm Hnq Hnv Hnc Hd Hxd Hfr Hfc Hft Hur Huc Hut].
  constructor; cbn [set_xdot_analytic model_ num_positions_ num_velocities_
    num_controls_ pinocchio_data_ xdot_analytic_ fx_ fu_]; assumption.
Qed.

Lemma bound_write_fx (m : Model) (s : PinocchioDynamicsSolver) (b : Block)
    (g : nat -> nat -> R) :
  (nv m <= row0 b)%nat -> bound m s -> bound m (set_fx (write (fx_ s) b g) s).
Proof.
  intros Hrow [Hm Hnq Hnv Hnc Hd Hxd Hfr Hfc Hft Hur Huc Hut].
  constructor; cbn [set_fx model_ num_positions_ num_velocities_
    num_controls_ pinocchio_data_ xdot_analytic_ fx_ fu_]; try assumption.
  intros i j Hi Hj.
  rewrite mcoeff_write by lia.
  rewrite inside_below by lia. apply Hft; assumption.
Qed.

Lemma bound_write_fu (m : Model) (s : PinocchioDynamicsSolver) (b : Block)
    (g : nat -> nat -> R) :
  (nv m <= row0 b)%nat -> bound m s -> bound m (set_fu (write (fu_ s) b g) s).
Proof.
  intros Hrow [Hm Hnq Hnv Hnc Hd Hxd Hfr Hfc Hft Hur Huc Hut].
  constructor; cbn [set_fu model_ num_positions_ num_velocities_
    num_controls_ pinocchio_data_ xdot_analytic_ fx_ fu_]; try assumption.
  intros i j Hi Hj.
  rewrite mcoeff_write by lia.
  rewrite inside_below by lia. apply Hut; assumption.
Qed.

Lemma ComputeDerivatives_bound (m : Model) (s : PinocchioDynamicsSolver) (x u : Vec) :
  bound m s -> bound m (snd (ComputeDerivatives x u s)).
Proof.
  intros Hb.
  destruct (head_tail_cases (nq m) (nv m) x) as [(q & v & Hq & Hv) | Hshort].
  - destruct (bound_data m s Hb) as [d Hd].
    destruct (computeABADerivatives m d q v u
                (read (fx_ s) (dq_block (nv m))) (read (fx_ s) (dv_block (nv m)))
                (read (fu_ s) (dtau_block (nv m))))
      as [d' [[dq dv] dtau]] eqn:Hcall.
    rewrite (ComputeDerivatives_returns m s x u q v d d' dq dv dtau Hb Hd Hq Hv Hcall).
    cbn [snd].
    pose proof (bound_set_data m s d' Hb) as Hb1.
    pose proof (bound_write_fx m _ (dq_block (nv m)) dq (Nat.le_refl _) Hb1) as Hb2.
    pose proof (bound_write_fx m _ (dv_block (nv m)) dv (Nat.le_refl _) Hb2) as Hb3.
    assert (Hrow : (nv m <= row0 (dtau_block (nv m)))%nat)
      by (cbn [dtau_block row0]; lia).
    exact (bound_write_fu m _ (dtau_block (nv m)) dtau Hrow Hb3).
  - rewrite (ComputeDerivatives_aborts m s x u Hb Hshort). exact Hb.
Qed.

Lemma f_bound (m : Model) (s : PinocchioDynamicsSolver) (x u : Vec) :
  bound m s -> bound m (snd (f x u s)).
Proof.
  intros Hb.
  destruct (head_tail_cases (nq m) (nv m) x) as [(q & v & Hq & Hv) | Hshort].
  - destruct (bound_data m s Hb) as [d Hd].
    rewrite (f_runs m s x u q v d Hb Hd Hq Hv).
    pose proof (length_tail _ _ _ Hv) as Hlv.
    pose proof (bound_xdot m s Hb) as Hxd.
    destruct (Nat.eqb_spec (length (ddq (aba m d q v u))) (nv m)) as [Heq | Hne];
      cbn [snd]; apply bound_set_xdot_analytic;
      try (apply bound_set_data; exact Hb).
    + rewrite length_app. lia.
    + rewrite length_app, length_skipn. lia.
  - rewrite (f_aborts m s x u Hb Hshort). exact Hb.
Qed.

Lemma exec_bound (m : Model) (s : PinocchioDynamicsSolver) (c : call) :
  bound m s -> bound m (snd (exec c s)).
Proof.
  intros Hb. destruct c as [x u | x u | x u]; unfold exec, mbind.
  - pose proof (f_bound m s x u Hb) as H.
    destruct (f x u s) as [[v | msg | ] s1]; exact H.
  - unfold fx, mbind.
    pose proof (ComputeDerivatives_bound m s x u Hb) as H.
    destruct (ComputeDerivatives x u s) as [[[] | msg | ] s1]; exact H.
  - unfold fu, mbind.
    pose proof (ComputeDerivatives_bound m s x u Hb) as H.
    destruct (ComputeDerivatives x u s) as [[[] | msg | ] s1]; exact H.
Qed.

Lemma run_bound (m : Model) (cs : list call) (s : PinocchioDynamicsSolver) :
  bound m s -> bound m (snd (run cs s)).
Proof.
  revert s. induction cs as [ | c cs IH]; intros s Hb.
  - exact Hb.
  - cbn [run]. unfold mbind.
    pose proof (exec_bound m s c Hb) as H.
    destruct (exec c s) as [[v | msg | ] s1]; cbn [snd] in H |- *.
    + apply IH. exact H.
    + exact H.
    + exact H.
Qed.

Lemma fx_buffer_determined (n : nat) (fx fx' : Mat)
    (dq dv dq' dv' : nat -> nat -> R) :
  rows fx = (2 * n)%nat -> cols fx = (2 * n)%nat ->
  rows fx' = (2 * n)%nat -> cols fx' = (2 * n)%nat ->
  fx_top n fx -> fx_top n fx' ->
  (forall i j, (i < n)%nat -> (j < n)%nat -> dq i j = dq' i j /\ dv i j = dv' i j) ->
  write (write fx (dq_block n) dq) (dv_block n) dv =
  write (write fx' (dq_block n) dq') (dv_block n) dv'.
Proof.
  intros Hr Hc Hr' Hc' Ht Ht' Heq.
  apply write_ext; cbn [write mat_init rows cols]; try congruence.
  intros i j Hi Hj.
  destruct (inside (dv_block n) i j) eqn:Hin2.
  - apply inside_spec in Hin2. cbn [dv_block row0 col0 height width] in Hin2 |- *.
    apply Heq; lia.
  - rewrite !mcoeff_write by lia.
    destruct (inside (dq_block n) i j) eqn:Hin1.
    + apply inside_spec in Hin1. cbn [dq_block row0 col0 height width] in Hin1 |- *.
      apply Heq; lia.
    + assert (Hi' : (i < n)%nat).
      { destruct (Nat.lt_ge_cases i n) as [Hlt | Hge]; [exact Hlt | exfalso].
        destruct (Nat.lt_ge_cases j n) as [Hjlt | Hjge].
        - assert (Ht1 : inside (dq_block n) i j = true)
            by (apply inside_spec; cbn [dq_block row0 col0 height width]; lia).
          congruence.
        - assert (Ht2 : inside (dv_block n) i j = true)
            by (apply inside_spec; cbn [dv_block row0 col0 height width]; lia).
          congruence. }
      rewrite Ht, Ht' by lia. reflexivity.
Qed.

Lemma fu_buffer_determined (n : nat) (fu fu' : Mat) (dtau dtau' : nat -> nat -> R) :
  rows fu = (2 * n)%nat -> cols fu = n ->
  rows fu' = (2 * n)%nat -> cols fu' = n ->
  fu_top n fu -> fu_top n fu' ->
  (forall i j, (i < n)%nat -> (j < n)%nat -> dtau i j = dtau' i j) ->
  write fu (dtau_block n) dtau = write fu' (dtau_block n) dtau'.
Proof.
  intros Hr Hc Hr' Hc' Ht Ht' Heq.
  apply write_ext; try congruence.
  intros i j Hi Hj.
  destruct (inside (dtau_block n) i j) eqn:Hin.
  - apply inside_spec in Hin. cbn [dtau_block row0 col0 height width] in Hin |- *.
    apply Heq; lia.
  - assert (Hi' : (i < n)%nat).
    { destruct (Nat.lt_ge_cases i n) as [Hlt | Hge]; [exact Hlt | exfalso].
      assert (Ht1 : inside (dtau_block n) i j = true)
        by (apply inside_spec; cbn [dtau_block row0 col0 height width]; lia).
      congruence. }
    rewrite Ht, Ht' by lia. reflexivity.
Qed.

(** On two solvers bound to the same model a call has the same outcome. *)
Lemma exec_determined (m : Model) (s s' : PinocchioDynamicsSolver) (c : call) :
  engine_stateless -> bound m s -> bound m s' ->
  fst (exec c s) = fst (exec c s').
Proof.
  intros [Haba Hder] Hb Hb'.
  assert (Hcases : forall x : Vec,
    (exists q v, head (nq m) x = Ok q /\ tail (nv m) x = Ok v) \/
    (length x < nq m \/ length x < nv m)%nat) by (intros x; apply head_tail_cases).
  destruct (bound_data m s Hb) as [d Hd].
  destruct (bound_data m s' Hb') as [d' Hd'].
  assert (Hderiv : forall x u q v, head (nq m) x = Ok q -> tail (nv m) x = Ok v ->
    exists s1 s1', ComputeDerivatives x u s = (Ok tt, s1) /\
                   ComputeDerivatives x u s' = (Ok tt, s1') /\
                   fx_ s1 = fx_ s1' /\ fu_ s1 = fu_ s1').
  { intros x u q v Hq Hv.
    pose proof (Hder m d d' q v u
      (read (fx_ s) (dq_block (nv m))) (read (fx_ s) (dv_block (nv m)))
      (read (fu_ s) (dtau_block (nv m)))
      (read (fx_ s') (dq_block (nv m))) (read (fx_ s') (dv_block (nv m)))
      (read (fu_ s') (dtau_block (nv m)))) as Hsame.
    destruct (computeABADerivatives m d q v u _ _ _) as [e [[dq dv] dtau]] eqn:Hcall.
    destruct (computeABADerivatives m d' q v u _ _ _) as [e' [[dq' dv'] dtau']] eqn:Hcall'.
    cbn [snd] in Hsame.
    do 2 eexists.
    split; [exact (ComputeDerivatives_returns m s x u q v d e dq dv dtau Hb Hd Hq Hv Hcall) | ].
    split; [exact (ComputeDerivatives_returns m s' x u q v d' e' dq' dv' dtau' Hb' Hd' Hq Hv Hcall') | ].
    cbn [set_fu set_fx set_data fx_ fu_].
    destruct Hb as [_ _ _ _ _ _ Hfr Hfc Hft Hur Huc Hut].
    destruct Hb' as [_ _ _ _ _ _ Hfr' Hfc' Hft' Hur' Huc' Hut'].
    split.
    - apply fx_buffer_determined; try assumption.
      intros i j Hi Hj. destruct (Hsame i j Hi Hj) as (H1 & H2 & _). split; assumption.
    - apply fu_buffer_determined; try assumption.
      intros i j Hi Hj. destruct (Hsame i j Hi Hj) as (_ & _ & H3). exact H3. }
  destruct c as [x u | x u | x u]; unfold exec, mbind.
  - destruct (Hcases x) as [(q & v & Hq & Hv) | Hshort].
    + rewrite (f_runs m s x u q v d Hb Hd Hq Hv).
      rewrite (f_runs m s' x u q v d' Hb' Hd' Hq Hv).
      cbv zeta. rewrite (Haba m d d' q v u).
      destruct (length (ddq (aba m d' q v u)) =? nv m)%nat; reflexivity.
    + rewrite (f_aborts m s x u Hb Hshort), (f_aborts m s' x u Hb' Hshort).
      reflexivity.
  - unfold fx, mbind, get, mret.
    destruct (Hcases x) as [(q & v & Hq & Hv) | Hshort].
    + destruct (Hderiv x u q v Hq Hv) as (s1 & s1' & -> & -> & Hfx & _).
      cbn [fst]. rewrite Hfx. reflexivity.
    + rewrite (ComputeDerivatives_aborts m s x u Hb Hshort),
        (ComputeDerivatives_aborts m s' x u Hb' Hshort). reflexivity.
  - unfold fu, mbind, get, mret.
    destruct (Hcases x) as [(q & v & Hq & Hv) | Hshort].
    + destruct (Hderiv x u q v Hq Hv) as (s1 & s1' & -> & -> & _ & Hfu).
      cbn [fst]. rewrite Hfu. reflexivity.
    + rewrite (ComputeDerivatives_aborts m s x u Hb Hshort),
        (ComputeDerivatives_aborts m s' x u Hb' Hshort). reflexivity.
Qed.

(** C8. [AssignScene] builds the engine's model from the scene's description
    when, and only when, the scene declares a fixed base. For a floating or
    a planar base it throws, and the solver is as it was: no size and no
    buffer has been written. *)
Theorem pinocchio_AssignScene_fixed_base_only
    (scene_in : Scene URDF) (s : PinocchioDynamicsSolver) :
  match ControlledBaseType scene_in with
  | FIXED =>
      fst (AssignScene scene_in s) = Ok tt /\
      model_ (snd (AssignScene scene_in s)) = buildModel (getURDF scene_in) (model_ s)
  | FLOATING | PLANAR =>
      AssignScene scene_in s =
      (Throw "This condition should never happen. Unknown BaseType.", s)
  end.
Proof.
  destruct (ControlledBaseType scene_in) eqn:Hbase.
  - rewrite (AssignScene_FIXED scene_in s Hbase). split; reflexivity.
  - unfold AssignScene, mbind, lift. rewrite Hbase. reflexivity.
  - unfold AssignScene, mbind, lift. rewrite Hbase. reflexivity.
Qed.

Lemma read_top_right_identity (n : nat) (fx : Mat) :
  fx_top n fx ->
  read fx (mkBlock 0 (2 * n - n) n n) = mIdentity n n.
Proof.
  intros Ht. unfold read, mIdentity. cbn [row0 col0 height width].
  apply mat_init_ext. intros i j Hi Hj.
  rewrite Ht by lia.
  replace (n <=? 2 * n - n + j)%nat with true by (symmetry; apply Nat.leb_le; lia).
  f_equal. lia.
Qed.

(** C4. After [AssignScene] has returned, and before any call, [fx_] is a
    square matrix of side [2 * nv] whose top-right [nv x nv] block is the
    identity and whose other entries are zero. After any sequence of calls
    of [f], [fx] and [fu] the top-right block of [fx_] is still the
    identity. *)
Theorem pinocchio_fx_identity_block
    (scene_in : Scene URDF) (s0 : PinocchioDynamicsSolver) (calls : list call) :
  ControlledBaseType scene_in = FIXED ->
  let s := snd (AssignScene scene_in s0) in
  let n := num_velocities_ s in
  fst (AssignScene scene_in s0) = Ok tt /\
  rows (fx_ s) = (2 * n)%nat /\ cols (fx_ s) = (2 * n)%nat /\
  (forall i j, (i < 2 * n)%nat -> (j < 2 * n)%nat ->
     mcoeff (fx_ s) i j =
     if (i <? n)%nat && (n <=? j)%nat then kron i (j - n) else 0) /\
  (exists b, topRightCorner (fx_ s) n n = Ok b /\ read (fx_ s) b = mIdentity n n) /\
  (let s' := snd (run calls s) in
   exists b, topRightCorner (fx_ s') n n = Ok b /\ read (fx_ s') b = mIdentity n n).
Proof.
  intros Hbase s n.
  assert (Hs : s = after_AssignScene scene_in s0)
    by (unfold s; rewrite (AssignScene_FIXED scene_in s0 Hbase); reflexivity).
  set (m := buildModel (getURDF scene_in) (model_ s0)).
  assert (Hb : bound m s) by (rewrite Hs; apply bound_after_AssignScene).
  assert (Hn : n = nv m) by (unfold n; apply (bound_velocities m s Hb)).
  assert (Hblock : forall t, bound m t ->
    exists b, topRightCorner (fx_ t) n n = Ok b /\ read (fx_ t) b = mIdentity n n).
  { intros t [_ _ _ _ _ _ Hfr Hfc Hft _ _ _].
    eexists. split.
    - unfold topRightCorner. rewrite Hfr, Hfc, Hn, leb_true by lia. reflexivity.
    - rewrite Hn. apply read_top_right_identity. exact Hft. }
  split; [rewrite (AssignScene_FIXED scene_in s0 Hbase); reflexivity | ].
  split; [rewrite Hn; apply (bound_fx_rows m s Hb) | ].
  split; [rewrite Hn; apply (bound_fx_cols m s Hb) | ].
  split; [ | split; [apply Hblock; exact Hb | apply Hblock; apply run_bound; exact Hb]].
  intros i j Hi Hj. rewrite Hn in *.
  rewrite Hs. unfold after_AssignScene. fold m. cbn [fx_]. unfold setIdentity.
  rewrite mcoeff_write by (cbn [rows cols mZero mat_init]; lia).
  unfold mZero. rewrite mcoeff_mat_init by lia.
  unfold inside. cbn [row0 col0 height width].
  replace (2 * nv m - nv m)%nat with (nv m) by lia.
  replace (0 <=? i)%nat with true by (symmetry; apply leb_true; lia).
  replace (j <? nv m + nv m)%nat with true by (symmetry; apply Nat.ltb_lt; lia).
  cbn [andb Nat.add]. rewrite andb_true_r.
  destruct ((i <? nv m)%nat && (nv m <=? j)%nat); [ | reflexivity].
  rewrite Nat.sub_0_r. reflexivity.
Qed.

(** C10. On a bound solver the outcome of a call of [f], [fx] or [fu] is the
    same after any two sequences of earlier calls: it is a function of the
    call's arguments and of the bound model. The engine is taken to compute
    its results from the model and [(q, v, tau)] alone. *)
Theorem pinocchio_calls_history_insensitive
    (scene_in : Scene URDF) (s0 : PinocchioDynamicsSolver)
    (before before' : list call) (c : call) :
  engine_stateless -> ControlledBaseType scene_in = FIXED ->
  let s := snd (AssignScene scene_in s0) in
  fst (exec c (snd (run before s))) = fst (exec c (snd (run before' s))).
Proof.
  intros Hengine Hbase s.
  assert (Hb : bound (buildModel (getURDF scene_in) (model_ s0)) s).
  { unfold s. rewrite (AssignScene_FIXED scene_in s0 Hbase).
    apply bound_after_AssignScene. }
  apply (exec_determined (buildModel (getURDF scene_in) (model_ s0)));
    [exact Hengine | apply run_bound; exact Hb | apply run_bound; exact Hb].
Qed.

Lemma wrong_size_false (s : PinocchioDynamicsSolver) (x_1 x_2 : Vec) :
  length x_1 = (num_positions_ s + num_velocities_ s)%nat ->
  length x_2 = (num_positions_ s + num_velocities_ s)%nat ->
  wrong_size s x_1 x_2 = false.
Proof.
  intros H1 H2. unfold wrong_size, size.
  rewrite H1, H2, Nat.eqb_refl. reflexivity.
Qed.

(** C5. For two states of the bound size, [dStateDelta] returns with [ARG0]
    a matrix whose bottom-right [nv x nv] block is the identity, and with
    [ARG1] one whose bottom-right block is its opposite. The top-left block
    is what the engine's [dDifference], called on the configurations in the
    order [(x_2, x_1)], writes into an identity block: in the engine's slot
    [ARG1] for the derivative in [x_1], in its slot [ARG0] for the derivative
    in [x_2]. *)
Theorem pinocchio_dStateDelta_blocks
    (s : PinocchioDynamicsSolver) (x_1 x_2 : Vec) :
  length x_1 = (num_positions_ s + num_velocities_ s)%nat ->
  length x_2 = (num_positions_ s + num_velocities_ s)%nat ->
  let n := num_velocities_ s in
  let q1 := firstn (num_positions_ s) x_1 in
  let q2 := firstn (num_positions_ s) x_2 in
  exists J0 J1,
    dStateDelta s x_1 x_2 ARG0 = Ok J0 /\
    dStateDelta s x_1 x_2 ARG1 = Ok J1 /\
    (forall i j, (i < n)%nat -> (j < n)%nat ->
       mcoeff J0 (n + i) (n + j) = kron i j /\
       mcoeff J1 (n + i) (n + j) = - mcoeff J0 (n + i) (n + j)) /\
    (forall i j, (i < n)%nat -> (j < n)%nat ->
       mcoeff J0 i j = dDifference (model_ s) q2 q1 (mIdentity n n) ARG1 i j /\
       mcoeff J1 i j = dDifference (model_ s) q2 q1 (mIdentity n n) ARG0 i j).
Proof.
  intros H1 H2 n q1 q2.
  unfold dStateDelta. rewrite (wrong_size_false s x_1 x_2 H1 H2).
  cbn [ArgumentPosition_eqb negb andb].
  rewrite !head_long_enough by lia. cbn [rbind].
  fold n q1 q2.
  unfold topLeftCorner. rewrite rows_mIdentity, cols_mIdentity.
  rewrite (leb_true n (2 * n)) by lia. cbn [andb rbind].
  rewrite read_top_left_identity.
  unfold bottomRightCorner. rewrite rows_write, cols_write.
  rewrite rows_mIdentity, cols_mIdentity.
  rewrite (leb_true n (2 * n)) by lia. cbn [andb rbind].
  do 2 eexists. split; [reflexivity | ]. split; [reflexivity | ].
  assert (Hin : forall i j, (i < n)%nat -> (j < n)%nat ->
    inside (mkBlock 0 0 n n) (n + i) (n + j) = false).
  { intros i j Hi Hj. unfold inside. cbn [row0 col0 height width].
    replace (n + i <? 0 + n)%nat with false by (symmetry; apply Nat.ltb_ge; lia).
    rewrite andb_false_r. reflexivity. }
  assert (Hbr : forall i j, (i < n)%nat -> (j < n)%nat ->
    inside (mkBlock (2 * n - n) (2 * n - n) n n) (n + i) (n + j) = true).
  { intros i j Hi Hj. apply inside_spec. cbn [row0 col0 height width]. lia. }
  assert (Hbr' : forall i j, (i < n)%nat -> (j < n)%nat ->
    inside (mkBlock (2 * n - n) (2 * n - n) n n) i j = false).
  { intros i j Hi Hj. apply inside_below. cbn [row0]. lia. }
  assert (Htl : forall i j, (i < n)%nat -> (j < n)%nat ->
    inside (mkBlock 0 0 n n) i j = true).
  { intros i j Hi Hj. apply inside_spec. cbn [row0 col0 height width]. lia. }
  assert (HJ0 : forall i j, (i < n)%nat -> (j < n)%nat -> forall g,
    mcoeff (write (mIdentity (2 * n) (2 * n)) (mkBlock 0 0 n n) g) (n + i) (n + j)
    = kron i j).
  { intros i j Hi Hj g.
    rewrite mcoeff_write by (rewrite ?rows_write, ?cols_write, ?rows_mIdentity, ?cols_mIdentity; lia).
    rewrite Hin by assumption.
    unfold mIdentity. rewrite mcoeff_mat_init by lia. apply kron_shift. }
  split.
  - intros i j Hi Hj. split; [apply HJ0; assumption | ].
    unfold scale_in_place.
    rewrite mcoeff_write by (rewrite ?rows_write, ?cols_write, ?rows_mIdentity, ?cols_mIdentity; lia).
    rewrite Hbr by assumption. cbn [row0 col0].
    replace (2 * n - n + (n + i - (2 * n - n)))%nat with (n + i)%nat by lia.
    replace (2 * n - n + (n + j - (2 * n - n)))%nat with (n + j)%nat by lia.
    rewrite !HJ0 by assumption. lra.
  - intros i j Hi Hj. split.
    + rewrite mcoeff_write by (rewrite ?rows_write, ?cols_write, ?rows_mIdentity, ?cols_mIdentity; lia).
      rewrite Htl by assumption. cbn [row0 col0]. rewrite !Nat.sub_0_r. reflexivity.
    + unfold scale_in_place.
      rewrite mcoeff_write by (rewrite ?rows_write, ?cols_write, ?rows_mIdentity, ?cols_mIdentity; lia).
      rewrite Hbr' by assumption.
      rewrite mcoeff_write by (rewrite ?rows_write, ?cols_write, ?rows_mIdentity, ?cols_mIdentity; lia).
      rewrite Htl by assumption. cbn [row0 col0]. rewrite !Nat.sub_0_r. reflexivity.
Qed.

(** [StateDelta] on two states of the bound size: the engine's difference of
    the configurations, then the difference of the velocities. *)
Lemma StateDelta_value (s : PinocchioDynamicsSolver) (x_1 x_2 : Vec) :
  length x_1 = (num_positions_ s + num_velocities_ s)%nat ->
  length x_2 = (num_positions_ s + num_velocities_ s)%nat ->
  StateDelta uninitialized s x_1 x_2 =
  Ok (vec_init (num_velocities_ s)
        (difference (model_ s) (firstn (num_positions_ s) x_2)
                    (firstn (num_positions_ s) x_1))
      ++ zipWith Rminus (skipn (num_positions_ s) x_1) (skipn (num_positions_ s) x_2)).
Proof.
  intros H1 H2. unfold StateDelta.
  rewrite (wrong_size_false s x_1 x_2 H1 H2).
  set (np := num_positions_ s) in *. set (n := num_velocities_ s) in *.
  rewrite !head_long_enough by lia. cbn [rbind].
  rewrite fill_head_ok by (rewrite length_vec_init; lia). cbn [rbind].
  rewrite !tail_long_enough by lia. cbn [rbind].
  rewrite H1, H2. replace (np + n - n)%nat with np by lia.
  assert (Hl : length (skipn np x_1) = length (skipn np x_2))
    by (rewrite !length_skipn; lia).
  rewrite vsub_ok by exact Hl. cbn [rbind].
  rewrite assign_tail_ok.
  - cbn [rbind]. rewrite length_app, length_vec_init, length_skipn, length_vec_init.
    replace (n + (2 * n - n) - n)%nat with n by lia.
    rewrite firstn_app_exact by (rewrite length_vec_init; reflexivity).
    reflexivity.
  - rewrite length_app, length_vec_init. lia.
  - rewrite length_zipWith by exact Hl. rewrite length_skipn. lia.
Qed.

(** [Integrate(x2, StateDelta(x1, x2), 1)] on states of the bound size: the
    engine integrates, from the configuration of [x2], the difference it
    computed from the configuration of [x2] to that of [x1]; the velocities
    are those of [x1]. *)
Lemma Integrate_StateDelta_value
    (s : PinocchioDynamicsSolver) (x1 x2 xout : Vec) :
  length x1 = (num_positions_ s + num_velocities_ s)%nat ->
  length x2 = (num_positions_ s + num_velocities_ s)%nat ->
  length xout = (num_positions_ s + num_velocities_ s)%nat ->
  Integrate_StateDelta uninitialized s x2 x1 x2 xout =
  Ok (vec_init (num_positions_ s)
        (integrate (model_ s) (firstn (num_positions_ s) x2)
           (vec_init (num_velocities_ s)
              (difference (model_ s) (firstn (num_positions_ s) x2)
                          (firstn (num_positions_ s) x1))))
      ++ skipn (num_positions_ s) x1).
Proof.
  intros H1 H2 Ho.
  unfold Integrate_StateDelta.
  rewrite (StateDelta_value s x1 x2 H1 H2). cbn [rbind].
  unfold Integrate. rewrite vscale_1.
  set (np := num_positions_ s) in *. set (n := num_velocities_ s) in *.
  set (q1 := firstn np x1). set (q2 := firstn np x2).
  set (D := vec_init n (difference (model_ s) q2 q1)).
  set (dv := zipWith Rminus (skipn np x1) (skipn np x2)).
  assert (Hl : length (skipn np x1) = length (skipn np x2))
    by (rewrite !length_skipn; lia).
  assert (HD : length D = n) by apply length_vec_init.
  assert (Hdv : length dv = n).
  { unfold dv. rewrite length_zipWith by exact Hl. rewrite length_skipn. lia. }
  rewrite head_long_enough by lia. fold q2. cbn [rbind].
  rewrite head_long_enough by (rewrite length_app; lia).
  rewrite firstn_app_exact by (symmetry; exact HD). cbn [rbind].
  rewrite fill_head_ok by lia. cbn [rbind].
  rewrite tail_long_enough by lia. cbn [rbind].
  rewrite tail_long_enough by (rewrite length_app; lia). cbn [rbind].
  rewrite H2, length_app, HD, Hdv.
  replace (np + n - n)%nat with np by lia.
  replace (n + n - n)%nat with n by lia.
  rewrite skipn_app_exact by (symmetry; exact HD).
  rewrite vadd_ok by (rewrite Hdv, length_skipn; lia). cbn [rbind].
  unfold dv. rewrite zipWith_plus_minus by exact Hl.
  rewrite assign_tail_ok.
  - rewrite length_app, length_vec_init, length_skipn, Ho.
    replace (np + (np + n - np) - n)%nat with np by lia.
    rewrite firstn_app_exact by (rewrite length_vec_init; reflexivity).
    reflexivity.
  - rewrite length_app, length_vec_init, length_skipn. lia.
  - rewrite length_skipn. lia.
Qed.

(** C1, as amended. [StateDelta(x1, x2)] is [x1 - x2], so the round trip
    starts from the second argument: for states [x1], [x2] of the bound size,
    [Integrate(x2, StateDelta(x1, x2), 1)] returns the velocities of [x1]
    and a configuration related to that of [x1] by [sim], whenever the
    engine's [integrate] undoes its [difference] up to [sim]. With a
    Euclidean configuration space [sim] is equality and the result is [x1];
    on a manifold [sim] is equality up to the manifold's normalization. *)
Theorem pinocchio_Integrate_StateDelta_round_trip
    (sim : Vec -> Vec -> Prop) (s : PinocchioDynamicsSolver) (x1 x2 xout : Vec) :
  engine_round_trip sim ->
  num_positions_ s = nq (model_ s) -> num_velocities_ s = nv (model_ s) ->
  length x1 = (num_positions_ s + num_velocities_ s)%nat ->
  length x2 = (num_positions_ s + num_velocities_ s)%nat ->
  length xout = (num_positions_ s + num_velocities_ s)%nat ->
  exists q,
    Integrate_StateDelta uninitialized s x2 x1 x2 xout =
      Ok (q ++ skipn (num_positions_ s) x1) /\
    sim q (firstn (num_positions_ s) x1).
Proof.
  intros Hlaw Hnq Hnv H1 H2 Ho.
  rewrite (Integrate_StateDelta_value s x1 x2 xout H1 H2 Ho).
  eexists. split; [reflexivity | ].
  rewrite Hnq, Hnv.
  apply Hlaw; apply firstn_length_le; lia.
Qed.

Lemma cartpole_calls_return (c : Cartpole.CartpoleDynamicsSolver) (x u : Vec) :
  (4 <= length x)%nat -> (1 <= length u)%nat ->
  is_Ok (Cartpole.f c x u) && is_Ok (Cartpole.fx c x u) &&
  is_Ok (Cartpole.fu c x u) = true.
Proof.
  intros Hx Hu.
  destruct x as [ | x0 [ | x1 [ | x2 [ | x3 x']]]]; cbn [length] in Hx; try lia.
  destruct u as [ | u0 u']; cbn [length] in Hu; try lia.
  reflexivity.
Qed.

Lemma cartpole_calls_never_throw (c : Cartpole.CartpoleDynamicsSolver) (x u : Vec) :
  is_Throw (Cartpole.f c x u) || is_Throw (Cartpole.fx c x u) ||
  is_Throw (Cartpole.fu c x u) = false.
Proof.
  destruct x as [ | x0 [ | x1 [ | x2 [ | x3 x']]]];
    destruct u as [ | u0 u']; reflexivity.
Qed.

Lemma pinocchio_calls_return (m : Model) (s : PinocchioDynamicsSolver) (x u : Vec) :
  engine_ddq_sized -> bound m s ->
  length x = (num_positions_ s + num_velocities_ s)%nat ->
  is_Ok (fst (f x u s)) && is_Ok (fst (fx x u s)) && is_Ok (fst (fu x u s)) = true.
Proof.
  intros Hsized Hb Hx.
  pose proof (bound_positions m s Hb) as Hnq.
  pose proof (bound_velocities m s Hb) as Hnv.
  destruct (bound_data m s Hb) as [d Hd].
  assert (Hq : head (nq m) x = Ok (firstn (nq m) x)) by (apply head_long_enough; lia).
  assert (Hv : tail (nv m) x = Ok (skipn (length x - nv m) x))
    by (apply tail_long_enough; lia).
  rewrite (f_runs m s x u _ _ d Hb Hd Hq Hv). cbv zeta.
  rewrite Hsized, Nat.eqb_refl. cbn [fst is_Ok andb].
  destruct (computeABADerivatives m d (firstn (nq m) x) (skipn (length x - nv m) x) u
              (read (fx_ s) (dq_block (nv m))) (read (fx_ s) (dv_block (nv m)))
              (read (fu_ s) (dtau_block (nv m))))
    as [d' [[dq dv] dtau]] eqn:Hcall.
  unfold fx, fu, mbind, get, mret.
  rewrite (ComputeDerivatives_returns m s x u _ _ d d' dq dv dtau Hb Hd Hq Hv Hcall).
  reflexivity.
Qed.

(** C2, as amended. [f], [fx] and [fu] check no size. The cart-pole's return
    for every state of at least 4 coefficients and every control of at least
    1, the sizes 4 and 1 among them, and throw for no argument at all; those
    of the articulated-body solver return on a bound solver for a state of
    [num_positions + num_velocities] coefficients and a control of
    [num_controls], the engine's acceleration having [nv] coefficients. *)
Theorem f_fx_fu_return_on_matching_sizes
    (c : Cartpole.CartpoleDynamicsSolver) (xc uc : Vec)
    (scene_in : Scene URDF) (s0 : PinocchioDynamicsSolver) (before : list call)
    (x u : Vec) :
  (4 <= length xc)%nat -> (1 <= length uc)%nat ->
  engine_ddq_sized -> ControlledBaseType scene_in = FIXED ->
  let s := snd (run before (snd (AssignScene scene_in s0))) in
  length x = (num_positions_ s + num_velocities_ s)%nat ->
  length u = num_controls_ s ->
  (is_Ok (Cartpole.f c xc uc) && is_Ok (Cartpole.fx c xc uc) &&
   is_Ok (Cartpole.fu c xc uc) = true) /\
  (forall x' u' : Vec,
     is_Throw (Cartpole.f c x' u') || is_Throw (Cartpole.fx c x' u') ||
     is_Throw (Cartpole.fu c x' u') = false) /\
  (is_Ok (fst (f x u s)) && is_Ok (fst (fx x u s)) &&
   is_Ok (fst (fu x u s)) = true).
Proof.
  intros Hxc Huc Hsized Hbase s Hx Hu.
  split; [apply cartpole_calls_return; assumption | ].
  split; [intros x' u'; apply cartpole_calls_never_throw | ].
  apply (pinocchio_calls_return (buildModel (getURDF scene_in) (model_ s0)));
    [exact Hsized | | exact Hx].
  apply run_bound. rewrite (AssignScene_FIXED scene_in s0 Hbase).
  apply bound_after_AssignScene.
Qed.
End PinocchioProps.

(** ** The solver on the Euclidean engine: concrete instances *)

Module OnEuclid.

Import Pinocchio.

Lemma euclid_stateless : engine_stateless (E := Euclid.engine).
Proof.
  split.
  - intros m d d' q v tau. reflexivity.
  - intros m d d' q v tau A B C A' B' C' i j Hi Hj. cbn. auto.
Qed.

Lemma euclid_ddq_sized : engine_ddq_sized (E := Euclid.engine).
Proof. intros m d q v tau. cbn. apply length_vec_init. Qed.

Lemma vec_init_at (q : Vec) : vec_init (length q) (Euclid.at_ q) = q.
Proof.
  apply (nth_ext _ _ 0 0).
  - apply length_vec_init.
  - intros i Hi. rewrite length_vec_init in Hi.
    unfold vec_init. rewrite nth_map_seq by exact Hi. reflexivity.
Qed.

Lemma euclid_round_trip : engine_round_trip (E := Euclid.engine) eq.
Proof.
  intros m q0 q1 H0 H1.
  cbn [nq nv integrate difference Euclid.engine] in *.
  transitivity (vec_init (length q1) (Euclid.at_ q1)); [ | apply vec_init_at].
  rewrite H1. unfold vec_init. apply map_seq_ext. intros i Hi.
  unfold Euclid.at_ at 2. rewrite nth_map_seq by lia. ring.
Qed.

Lemma euclid_bound1 :
  Euclid.bound1 = after_AssignScene (E := Euclid.engine) Euclid.one_joint Euclid.fresh.
Proof.
  unfold Euclid.bound1.
  rewrite (AssignScene_FIXED (E := Euclid.engine) Euclid.one_joint Euclid.fresh eq_refl).
  reflexivity.
Qed.

(** C1, as stated, fails: one joint, [x1 = (0, 0)], [x2 = (0, 1)].
    [StateDelta(x2, x1) = (0, 1)] and [Integrate(x2, (0, 1), 1) = (0, 2)],
    which is not [x1]. *)
Lemma round_trip_in_the_stated_order_fails :
  Integrate_StateDelta (E := Euclid.engine) Euclid.junk Euclid.bound1
    [0; 1] [0; 1] [0; 0] [7; 7] <> Ok [0; 0].
Proof.
  unfold Integrate_StateDelta. rewrite euclid_bound1.
  rewrite StateDelta_value by reflexivity.
  cbn. unfold Euclid.at_. cbn.
  intros H. injection H as _ H. lra.
Qed.

Example round_trip_in_the_stated_order_value :
  Integrate_StateDelta (E := Euclid.engine) Euclid.junk Euclid.bound1
    [0; 1] [0; 1] [0; 0] [7; 7] = Ok [0; 2].
Proof.
  unfold Integrate_StateDelta. rewrite euclid_bound1.
  rewrite StateDelta_value by reflexivity.
  cbn. unfold Euclid.at_. cbn.
  repeat f_equal; lra.
Qed.

Lemma pinocchio_Integrate_StateDelta_round_trip_witness :
  exists q,
    Integrate_StateDelta (E := Euclid.engine) Euclid.junk Euclid.bound1
      [0; 1] [0; 0] [0; 1] [7; 7] =
      Ok (q ++ skipn (num_positions_ Euclid.bound1) [0; 0]) /\
    q = firstn (num_positions_ Euclid.bound1) [0; 0].
Proof.
  apply (pinocchio_Integrate_StateDelta_round_trip (E := Euclid.engine)
           Euclid.junk eq Euclid.bound1 [0; 0] [0; 1] [7; 7]).
  - exact euclid_round_trip.
  - reflexivity.
  - reflexivity.
  - reflexivity.
  - reflexivity.
  - reflexivity.
Defined.

(** C2, as stated, fails: a state of 5 coefficients is not of the size
    [num_positions + num_velocities = 4], and [f], [fx] and [fu] of the
    cart-pole return all the same. *)
Lemma cartpole_f_fx_fu_accept_a_longer_state :
  let s := Cartpole.new 1 0.1 0.5 9.81 in
  let x := [0; PI; 0; 0; 0] in
  let u := [0] in
  size x <> (Cartpole.num_positions_ s + Cartpole.num_velocities_ s)%nat /\
  is_Ok (Cartpole.f s x u) = true /\
  is_Ok (Cartpole.fx s x u) = true /\
  is_Ok (Cartpole.fu s x u) = true.
Proof.
  cbv zeta. split; [cbn; lia | ].
  repeat split; reflexivity.
Qed.

Lemma f_fx_fu_return_on_matching_sizes_witness :
  let s := snd (run (E := Euclid.engine) [Call_fx [0; 1] [2]]
                  (snd (AssignScene (E := Euclid.engine) Euclid.one_joint Euclid.fresh))) in
  (is_Ok (Cartpole.f (Cartpole.new 1 0.1 0.5 9.81) [0; PI; 0; 0] [0]) &&
   is_Ok (Cartpole.fx (Cartpole.new 1 0.1 0.5 9.81) [0; PI; 0; 0] [0]) &&
   is_Ok (Cartpole.fu (Cartpole.new 1 0.1 0.5 9.81) [0; PI; 0; 0] [0]) = true) /\
  (forall x' u' : Vec,
     is_Throw (Cartpole.f (Cartpole.new 1 0.1 0.5 9.81) x' u') ||
     is_Throw (Cartpole.fx (Cartpole.new 1 0.1 0.5 9.81) x' u') ||
     is_Throw (Cartpole.fu (Cartpole.new 1 0.1 0.5 9.81) x' u') = false) /\
  (is_Ok (fst (f [3; 4] [5] s)) && is_Ok (fst (fx [3; 4] [5] s)) &&
   is_Ok (fst (fu [3; 4] [5] s)) = true).
Proof.
  apply (f_fx_fu_return_on_matching_sizes (E := Euclid.engine)
           (Cartpole.new 1 0.1 0.5 9.81) [0; PI; 0; 0] [0]
           Euclid.one_joint Euclid.fresh [Call_fx [0; 1] [2]] [3; 4] [5]).
  - cbn. lia.
  - cbn. lia.
  - exact euclid_ddq_sized.
  - reflexivity.
  - reflexivity.
  - reflexivity.
Defined.

Lemma pinocchio_fx_identity_block_witness :
  let s := snd (AssignScene (E := Euclid.engine) Euclid.one_joint Euclid.fresh) in
  let n := num_velocities_ s in
  fst (AssignScene (E := Euclid.engine) Euclid.one_joint Euclid.fresh) = Ok tt /\
  rows (fx_ s) = (2 * n)%nat /\ cols (fx_ s) = (2 * n)%nat /\
  (forall i j, (i < 2 * n)%nat -> (j < 2 * n)%nat ->
     mcoeff (fx_ s) i j =
     if (i <? n)%nat && (n <=? j)%nat then kron i (j - n) else 0) /\
  (exists b, topRightCorner (fx_ s) n n = Ok b /\ read (fx_ s) b = mIdentity n n) /\
  (let s' := snd (run (E := Euclid.engine)
                    [Call_fx [0; 1] [2]; Call_fu [3; 4] [5]; Call_f [6; 7] [8]] s) in
   exists b, topRightCorner (fx_ s') n n = Ok b /\ read (fx_ s') b = mIdentity n n).
Proof.
  apply (pinocchio_fx_identity_block (E := Euclid.engine)
           Euclid.one_joint Euclid.fresh
           [Call_fx [0; 1] [2]; Call_fu [3; 4] [5]; Call_f [6; 7] [8]]).
  reflexivity.
Defined.

Lemma pinocchio_dStateDelta_blocks_witness :
  let s := Euclid.bound1 in
  let n := num_velocities_ s in
  let q1 := firstn (num_positions_ s) [0; 1] in
  let q2 := firstn (num_positions_ s) [2; 3] in
  exists J0 J1,
    dStateDelta s [0; 1] [2; 3] ARG0 = Ok J0 /\
    dStateDelta s [0; 1] [2; 3] ARG1 = Ok J1 /\
    (forall i j, (i < n)%nat -> (j < n)%nat ->
       mcoeff J0 (n + i) (n + j) = kron i j /\
       mcoeff J1 (n + i) (n + j) = - mcoeff J0 (n + i) (n + j)) /\
    (forall i j, (i < n)%nat -> (j < n)%nat ->
       mcoeff J0 i j = dDifference (model_ s) q2 q1 (mIdentity n n) ARG1 i j /\
       mcoeff J1 i j = dDifference (model_ s) q2 q1 (mIdentity n n) ARG0 i j).
Proof.
  apply (pinocchio_dStateDelta_blocks (E := Euclid.engine) Euclid.bound1 [0; 1] [2; 3]).
  - reflexivity.
  - reflexivity.
Defined.

Lemma pinocchio_calls_history_insensitive_witness :
  let s := snd (AssignScene (E := Euclid.engine) Euclid.one_joint Euclid.fresh) in
  fst (exec (Call_fx [6; 7] [8])
         (snd (run (E := Euclid.engine) [Call_fx [0; 1] [2]; Call_f [3; 4] [5]] s))) =
  fst (exec (Call_fx [6; 7] [8]) (snd (run (E := Euclid.engine) [] s))).
Proof.
  apply (pinocchio_calls_history_insensitive (E := Euclid.engine)
           Euclid.one_joint Euclid.fresh
           [Call_fx [0; 1] [2]; Call_f [3; 4] [5]] [] (Call_fx [6; 7] [8])).
  - exact euclid_stateless.
  - reflexivity.
Defined.
(** On the Euclidean engine the round trip is exact. *)
Lemma euclid_Integrate_StateDelta_exact
    (s : PinocchioDynamicsSolver (E := Euclid.engine)) (x1 x2 xout : Vec) :
  num_positions_ s = model_ s -> num_velocities_ s = model_ s ->
  length x1 = (num_positions_ s + num_velocities_ s)%nat ->
  length x2 = (num_positions_ s + num_velocities_ s)%nat ->
  length xout = (num_positions_ s + num_velocities_ s)%nat ->
  Integrate_StateDelta (E := Euclid.engine) Euclid.junk s x2 x1 x2 xout = Ok x1.
Proof.
  intros Hnq Hnv H1 H2 Ho.
  rewrite (Integrate_StateDelta_value (E := Euclid.engine) Euclid.junk s x1 x2 xout H1 H2 Ho).
  rewrite Hnv, Hnq.
  assert (Hrt : vec_init (model_ s)
                  (integrate (model_ s) (firstn (model_ s) x2)
                     (vec_init (model_ s)
                        (difference (model_ s) (firstn (model_ s) x2)
                                    (firstn (model_ s) x1)))) =
                firstn (model_ s) x1).
  { apply (euclid_round_trip (model_ s) (firstn (model_ s) x2) (firstn (model_ s) x1));
      apply firstn_length_le; cbn [nq Euclid.engine]; rewrite <- Hnq; lia. }
  rewrite Hrt, firstn_skipn. reflexivity.
Qed.

(** The articulated-body solver's [fx] checks no size either: of a state of
    three coefficients it reads the first [nq] and the last [nv]. *)
Example pinocchio_fx_accepts_a_longer_state :
  size [0; 1; 2] <> (num_positions_ Euclid.bound1 + num_velocities_ Euclid.bound1)%nat /\
  is_Ok (fst (fx (E := Euclid.engine) [0; 1; 2] [3] Euclid.bound1)) = true.
Proof.
  split.
  - cbn. lia.
  - reflexivity.
Qed.

End OnEuclid.

(** * Further properties of the two solvers *)

(** ** The cart-pole *)

(** X1. The cart-pole's [f] and [fx] return exactly when the state has at
    least 4 coefficients and the control at least 1; [fu] returns exactly
    when the state has at least 4, whatever the control, an empty one
    included. Otherwise the call does not survive; none of the three ever
    throws. *)
Theorem cartpole_calls_domain (c : Cartpole.CartpoleDynamicsSolver) (x u : Vec) :
  is_Ok (Cartpole.f c x u) = (4 <=? length x)%nat && (1 <=? length u)%nat /\
  is_Ok (Cartpole.fx c x u) = (4 <=? length x)%nat && (1 <=? length u)%nat /\
  is_Ok (Cartpole.fu c x u) = (4 <=? length x)%nat /\
  is_Throw (Cartpole.f c x u) = false /\
  is_Throw (Cartpole.fx c x u) = false /\
  is_Throw (Cartpole.fu c x u) = false.
Proof.
  destruct x as [ | x0 [ | x1 [ | x2 [ | x3 x']]]];
    destruct u as [ | u0 u']; repeat split; reflexivity.
Qed.


Lemma Ok_vector4 (a b c d a' b' c' d' : R) :
  a = a' -> b = b' -> c = c' -> d = d' ->
  @Ok Vec [a; b; c; d] = Ok [a'; b'; c'; d'].
Proof. intros -> -> -> ->. reflexivity. Qed.

(** X3. The cart-pole is its own mirror image: at the opposite state with
    the opposite force, [f] returns the opposite derivative. *)
Theorem cartpole_f_mirror (c : Cartpole.CartpoleDynamicsSolver) (x u : Vec) :
  length x = 4%nat -> length u = 1%nat ->
  exists y, Cartpole.f c x u = Ok y /\
            Cartpole.f c (vscale (-1) x) (vscale (-1) u) = Ok (vscale (-1) y).
Proof.
  intros Hx Hu.
  destruct x as [ | x0 [ | x1 [ | x2 [ | x3 [ | ]]]]]; try discriminate Hx.
  destruct u as [ | u0 [ | ]]; try discriminate Hu.
  eexists. split; [reflexivity | ].
  unfold Cartpole.f. cbn [vscale map coeff nth_error rbind].
  replace (-1 * x1) with (- x1) by ring.
  rewrite sin_neg, cos_neg. cbv zeta.
  replace (Cartpole.m_c c + Cartpole.m_p c * - sin x1 * - sin x1)
    with (Cartpole.m_c c + Cartpole.m_p c * sin x1 * sin x1) by ring.
  replace (Cartpole.l c * Cartpole.m_c c + Cartpole.l c * Cartpole.m_p c * - sin x1 * - sin x1)
    with (Cartpole.l c * Cartpole.m_c c + Cartpole.l c * Cartpole.m_p c * sin x1 * sin x1)
    by ring.
  apply Ok_vector4; unfold Rdiv; ring.
Qed.



Lemma quotient_zero (a b : R) : b <> 0 -> a / b = 0 -> a = 0.
Proof.
  intros Hb H. replace a with (a / b * b) by (field; exact Hb).
  rewrite H. ring.
Qed.

(** X6. With no force, positive gravity and physical masses and length, the
    states at which [f] returns zero are exactly those with no velocity and a
    vertical pole ([sin(x(1)) = 0]), wherever the cart is. *)
Theorem cartpole_unforced_equilibria
    (c : Cartpole.CartpoleDynamicsSolver) (x : Vec) :
  physical c -> 0 < Cartpole.g c -> length x = 4%nat ->
  (Cartpole.f c x [0] = Ok [0; 0; 0; 0] <->
   nth 2 x 0 = 0 /\ nth 3 x 0 = 0 /\ sin (nth 1 x 0) = 0).
Proof.
  intros Hphys Hg Hx.
  destruct x as [ | x0 [ | x1 [ | x2 [ | x3 [ | ]]]]]; try discriminate Hx.
  destruct (cartpole_denominators c x1 Hphys) as [Hd Hd3].
  destruct Hphys as (Hc & Hp & Hl).
  cbn [nth]. unfold Cartpole.f. cbn [coeff nth_error rbind]. cbv zeta.
  split.
  - intros H. injection H as H2 H3 Hcart Hpole.
    split; [exact H2 | ]. split; [exact H3 | ].
    subst x2 x3.
    pose proof (quotient_zero _ _ Hd3 Hpole) as Hnum.
    assert (Hprod : (Cartpole.m_c c + Cartpole.m_p c) * Cartpole.g c * sin x1 = 0).
    { apply Ropp_eq_0_compat in Hnum. rewrite <- Hnum. ring. }
    assert (Hpos : 0 < (Cartpole.m_c c + Cartpole.m_p c) * Cartpole.g c)
      by (apply Rmult_lt_0_compat; lra).
    apply Rmult_integral in Hprod. destruct Hprod as [Hz | Hz]; [lra | exact Hz].
  - intros (-> & -> & Hs). rewrite Hs.
    apply Ok_vector4; try reflexivity; unfold Rdiv; ring.
Qed.




(** ** The articulated-body solver *)

Section PinocchioExtras.

Context {E : Pinocchio.Engine}.

Import Pinocchio.

Lemma wrong_size_true (s : PinocchioDynamicsSolver) (x_1 x_2 : Vec) :
  wrong_size s x_1 x_2 = true ->
  length x_1 <> (num_positions_ s + num_velocities_ s)%nat \/
  length x_2 <> (num_positions_ s + num_velocities_ s)%nat.
Proof.
  unfold wrong_size, size. intros H.
  apply orb_true_iff in H. destruct H as [H | H];
    apply negb_true_iff, Nat.eqb_neq in H; [left | right]; exact H.
Qed.

Lemma wrong_size_sizes (s : PinocchioDynamicsSolver) (x_1 x_2 : Vec) :
  wrong_size s x_1 x_2 = false ->
  length x_1 = (num_positions_ s + num_velocities_ s)%nat /\
  length x_2 = (num_positions_ s + num_velocities_ s)%nat.
Proof.
  unfold wrong_size, size. intros H.
  apply orb_false_iff in H. destruct H as [H1 H2].
  apply negb_false_iff, Nat.eqb_eq in H1, H2. split; assumption.
Qed.

(** X9. The articulated-body solver's [StateDelta] throws exactly when one
    of the two states is not of the size [num_positions + num_velocities];
    otherwise it returns a vector of [2 * num_velocities] coefficients, the
    size of the tangent space and not that of the state. No assertion of
    Eigen can fail in it. *)
Theorem pinocchio_StateDelta_outcome
    (uninitialized : nat -> R) (s : PinocchioDynamicsSolver) (x_1 x_2 : Vec) :
  match StateDelta uninitialized s x_1 x_2 with
  | Ok d =>
      length x_1 = (num_positions_ s + num_velocities_ s)%nat /\
      length x_2 = (num_positions_ s + num_velocities_ s)%nat /\
      length d = (2 * num_velocities_ s)%nat
  | Throw _ =>
      length x_1 <> (num_positions_ s + num_velocities_ s)%nat \/
      length x_2 <> (num_positions_ s + num_velocities_ s)%nat
  | Abort => False
  end.
Proof.
  destruct (wrong_size s x_1 x_2) eqn:Hw.
  - unfold StateDelta. rewrite Hw. apply wrong_size_true. exact Hw.
  - destruct (wrong_size_sizes s x_1 x_2 Hw) as [H1 H2].
    rewrite (StateDelta_value uninitialized s x_1 x_2 H1 H2).
    split; [exact H1 | ]. split; [exact H2 | ].
    rewrite length_app, length_vec_init, length_zipWith, length_skipn;
      [lia | rewrite !length_skipn; lia].
Qed.

(** X10. The vector [StateDelta] returns is allocated without being
    initialised; nothing of what the storage held reaches the result. *)
Theorem pinocchio_StateDelta_ignores_uninitialized
    (garbage garbage' : nat -> R) (s : PinocchioDynamicsSolver) (x_1 x_2 : Vec) :
  StateDelta garbage s x_1 x_2 = StateDelta garbage' s x_1 x_2.
Proof.
  destruct (wrong_size s x_1 x_2) eqn:Hw.
  - unfold StateDelta. rewrite Hw. reflexivity.
  - destruct (wrong_size_sizes s x_1 x_2 Hw) as [H1 H2].
    rewrite (StateDelta_value garbage s x_1 x_2 H1 H2).
    rewrite (StateDelta_value garbage' s x_1 x_2 H1 H2).
    reflexivity.
Qed.

Lemma zipWith_minus_self (v : Vec) : zipWith Rminus v v = vZero (length v).
Proof.
  induction v as [ | a v IH]; [reflexivity | ].
  cbn. rewrite IH. f_equal. ring.
Qed.

Lemma vec_init_zero (n : nat) (g : nat -> R) :
  (forall i, (i < n)%nat -> g i = 0) -> vec_init n g = vZero n.
Proof.
  intros H. apply (nth_ext _ _ 0 0).
  - rewrite length_vec_init. unfold vZero. rewrite repeat_length. reflexivity.
  - intros i Hi. rewrite length_vec_init in Hi.
    unfold vec_init. rewrite nth_map_seq by exact Hi.
    unfold vZero. rewrite nth_repeat. apply H. exact Hi.
Qed.

Lemma vZero_app (a b : nat) : vZero a ++ vZero b = vZero (a + b).
Proof. unfold vZero. symmetry. apply repeat_app. Qed.

(** X11. When the engine's difference of a configuration with itself is
    zero, [StateDelta(x, x)] is the zero tangent vector. *)
Theorem pinocchio_StateDelta_of_a_state_with_itself
    (uninitialized : nat -> R) (s : PinocchioDynamicsSolver) (x : Vec) :
  engine_difference_self ->
  num_positions_ s = nq (model_ s) -> num_velocities_ s = nv (model_ s) ->
  length x = (num_positions_ s + num_velocities_ s)%nat ->
  StateDelta uninitialized s x x = Ok (vZero (2 * num_velocities_ s)).
Proof.
  intros Hself Hnq Hnv Hx.
  rewrite (StateDelta_value uninitialized s x x Hx Hx).
  rewrite zipWith_minus_self, length_skipn.
  rewrite vec_init_zero.
  - rewrite vZero_app.
    replace (num_velocities_ s + (length x - num_positions_ s))%nat
      with (2 * num_velocities_ s)%nat by lia.
    reflexivity.
  - intros i Hi. apply Hself.
    + rewrite <- Hnq. apply firstn_length_le. lia.
    + rewrite <- Hnv. exact Hi.
Qed.

Lemma dStateDelta_ARG0_value (s : PinocchioDynamicsSolver) (x_1 x_2 : Vec) :
  length x_1 = (num_positions_ s + num_velocities_ s)%nat ->
  length x_2 = (num_positions_ s + num_velocities_ s)%nat ->
  let n := num_velocities_ s in
  dStateDelta s x_1 x_2 ARG0 =
  Ok (write (mIdentity (2 * n) (2 * n)) (mkBlock 0 0 n n)
        (dDifference (model_ s) (firstn (num_positions_ s) x_2)
           (firstn (num_positions_ s) x_1) (mIdentity n n) ARG1)).
Proof.
  intros H1 H2 n.
  unfold dStateDelta. rewrite (wrong_size_false s x_1 x_2 H1 H2).
  cbn [ArgumentPosition_eqb negb andb].
  rewrite !head_long_enough by lia. cbn [rbind]. fold n.
  unfold topLeftCorner. rewrite rows_mIdentity, cols_mIdentity.
  rewrite (leb_true n (2 * n)) by lia. cbn [andb rbind].
  rewrite read_top_left_identity. reflexivity.
Qed.

Lemma dStateDelta_ARG1_value (s : PinocchioDynamicsSolver) (x_1 x_2 : Vec) :
  length x_1 = (num_positions_ s + num_velocities_ s)%nat ->
  length x_2 = (num_positions_ s + num_velocities_ s)%nat ->
  let n := num_velocities_ s in
  dStateDelta s x_1 x_2 ARG1 =
  Ok (scale_in_place
        (write (mIdentity (2 * n) (2 * n)) (mkBlock 0 0 n n)
           (dDifference (model_ s) (firstn (num_positions_ s) x_2)
              (firstn (num_positions_ s) x_1) (mIdentity n n) ARG0))
        (mkBlock (2 * n - n) (2 * n - n) n n) (-1.0)).
Proof.
  intros H1 H2 n.
  unfold dStateDelta. rewrite (wrong_size_false s x_1 x_2 H1 H2).
  cbn [ArgumentPosition_eqb negb andb].
  rewrite !head_long_enough by lia. cbn [rbind]. fold n.
  unfold topLeftCorner. rewrite rows_mIdentity, cols_mIdentity.
  rewrite (leb_true n (2 * n)) by lia. cbn [andb rbind].
  rewrite read_top_left_identity.
  unfold bottomRightCorner. rewrite rows_write, cols_write.
  rewrite rows_mIdentity, cols_mIdentity.
  rewrite (leb_true n (2 * n)) by lia. cbn [andb rbind]. reflexivity.
Qed.

Lemma inside_left_of (b : Block) (i j : nat) :
  (j < col0 b)%nat -> inside b i j = false.
Proof.
  intros Hj. unfold inside.
  replace (col0 b <=? j)%nat with false by (symmetry; apply Nat.leb_gt; exact Hj).
  rewrite andb_false_r. reflexivity.
Qed.

Lemma inside_right_of (b : Block) (i j : nat) :
  (col0 b + width b <= j)%nat -> inside b i j = false.
Proof.
  intros Hj. unfold inside.
  replace (j <? col0 b + width b)%nat with false by (symmetry; apply Nat.ltb_ge; exact Hj).
  rewrite andb_false_r. reflexivity.
Qed.

Lemma inside_under (b : Block) (i j : nat) :
  (row0 b + height b <= i)%nat -> inside b i j = false.
Proof.
  intros Hi. unfold inside.
  replace (i <? row0 b + height b)%nat with false by (symmetry; apply Nat.ltb_ge; exact Hi).
  rewrite andb_false_r. reflexivity.
Qed.

Lemma kron_off (i j : nat) : i <> j -> kron i j = 0.
Proof.
  intros H. unfold kron.
  replace (i =? j)%nat with false by (symmetry; apply Nat.eqb_neq; exact H).
  reflexivity.
Qed.

Lemma identity_with_top_left_off_diagonal (n : nat) (g : nat -> nat -> R) (i j : nat) :
  (i < n)%nat -> (j < n)%nat ->
  mcoeff (write (mIdentity (2 * n) (2 * n)) (mkBlock 0 0 n n) g) i (n + j) = 0 /\
  mcoeff (write (mIdentity (2 * n) (2 * n)) (mkBlock 0 0 n n) g) (n + i) j = 0.
Proof.
  intros Hi Hj. split.
  - rewrite mcoeff_write by (rewrite ?rows_mIdentity, ?cols_mIdentity; lia).
    rewrite inside_right_of by (cbn [col0 width]; lia).
    unfold mIdentity. rewrite mcoeff_mat_init by lia. apply kron_off. lia.
  - rewrite mcoeff_write by (rewrite ?rows_mIdentity, ?cols_mIdentity; lia).
    rewrite inside_under by (cbn [row0 height]; lia).
    unfold mIdentity. rewrite mcoeff_mat_init by lia. apply kron_off. lia.
Qed.

(** X12. [dStateDelta] throws exactly when a state has the wrong size or the
    selector is neither [ARG0] nor [ARG1]. Otherwise it returns a square
    matrix of side [2 * num_velocities] whose two off-diagonal blocks are
    zero. No assertion of Eigen can fail in it. *)
Theorem pinocchio_dStateDelta_outcome
    (s : PinocchioDynamicsSolver) (x_1 x_2 : Vec) (first_or_second : ArgumentPosition) :
  let n := num_velocities_ s in
  match dStateDelta s x_1 x_2 first_or_second with
  | Ok J =>
      length x_1 = (num_positions_ s + n)%nat /\
      length x_2 = (num_positions_ s + n)%nat /\
      (first_or_second = ARG0 \/ first_or_second = ARG1) /\
      rows J = (2 * n)%nat /\ cols J = (2 * n)%nat /\
      forall i j, (i < n)%nat -> (j < n)%nat ->
        mcoeff J i (n + j) = 0 /\ mcoeff J (n + i) j = 0
  | Throw _ =>
      length x_1 <> (num_positions_ s + n)%nat \/
      length x_2 <> (num_positions_ s + n)%nat \/
      (first_or_second <> ARG0 /\ first_or_second <> ARG1)
  | Abort => False
  end.
Proof.
  intros n.
  destruct (wrong_size s x_1 x_2) eqn:Hw.
  - unfold dStateDelta. rewrite Hw.
    destruct (wrong_size_true s x_1 x_2 Hw) as [H | H]; [left | right; left]; exact H.
  - destruct (wrong_size_sizes s x_1 x_2 Hw) as [H1 H2].
    destruct first_or_second.
    + rewrite (dStateDelta_ARG0_value s x_1 x_2 H1 H2). fold n.
      repeat (split; [first [assumption | reflexivity | (left; reflexivity)] | ]).
      intros i j Hi Hj. apply identity_with_top_left_off_diagonal; assumption.
    + rewrite (dStateDelta_ARG1_value s x_1 x_2 H1 H2). fold n.
      repeat (split; [first [assumption | reflexivity | (right; reflexivity)] | ]).
      intros i j Hi Hj. unfold scale_in_place. split.
      * rewrite mcoeff_write
          by (rewrite ?rows_write, ?cols_write, ?rows_mIdentity, ?cols_mIdentity; lia).
        rewrite inside_below by (cbn [row0]; lia).
        apply identity_with_top_left_off_diagonal; assumption.
      * rewrite mcoeff_write
          by (rewrite ?rows_write, ?cols_write, ?rows_mIdentity, ?cols_mIdentity; lia).
        rewrite inside_left_of by (cbn [col0]; lia).
        apply identity_with_top_left_off_diagonal; assumption.
    + unfold dStateDelta. rewrite Hw. cbn. right. right. split; discriminate.
    + unfold dStateDelta. rewrite Hw. cbn. right. right. split; discriminate.
    + unfold dStateDelta. rewrite Hw. cbn. right. right. split; discriminate.
Qed.

Lemma length_vscale (c : R) (v : Vec) : length (vscale c v) = length v.
Proof. unfold vscale. apply length_map. Qed.

(** What [Integrate] leaves in an [xout] of the state's size. *)
Lemma Integrate_value (s : PinocchioDynamicsSolver) (x dx : Vec) (dt : R) (xout : Vec) :
  (num_positions_ s <= length x)%nat -> (num_velocities_ s <= length x)%nat ->
  (num_velocities_ s <= length dx)%nat ->
  length xout = (num_positions_ s + num_velocities_ s)%nat ->
  Integrate s x dx dt xout =
  Ok (vec_init (num_positions_ s)
        (integrate (model_ s) (firstn (num_positions_ s) x)
           (firstn (num_velocities_ s) (vscale dt dx)))
      ++ zipWith Rplus (skipn (length x - num_velocities_ s) x)
           (skipn (length dx - num_velocities_ s) (vscale dt dx))).
Proof.
  intros Hxp Hxv Hdx Ho. unfold Integrate.
  set (np := num_positions_ s) in *. set (n := num_velocities_ s) in *.
  rewrite head_long_enough by lia. cbn [rbind].
  rewrite head_long_enough by (rewrite length_vscale; lia). cbn [rbind].
  rewrite fill_head_ok by lia. cbn [rbind].
  rewrite tail_long_enough by lia. cbn [rbind].
  rewrite tail_long_enough by (rewrite length_vscale; lia). cbn [rbind].
  rewrite length_vscale.
  rewrite vadd_ok by (rewrite !length_skipn, length_vscale; lia). cbn [rbind].
  rewrite assign_tail_ok.
  - rewrite length_app, length_vec_init, length_skipn, Ho.
    replace (np + (np + n - np) - n)%nat with np by lia.
    rewrite firstn_app_exact by (rewrite length_vec_init; reflexivity).
    reflexivity.
  - rewrite length_app, length_vec_init, length_skipn. lia.
  - rewrite length_zipWith by (rewrite !length_skipn, length_vscale; lia).
    rewrite length_skipn. lia.
Qed.

Lemma Integrate_aborts (s : PinocchioDynamicsSolver) (x dx : Vec) (dt : R) (xout : Vec) :
  (length x < num_positions_ s \/ length x < num_velocities_ s \/
   length dx < num_velocities_ s)%nat ->
  length xout = (num_positions_ s + num_velocities_ s)%nat ->
  Integrate s x dx dt xout = Abort.
Proof.
  intros Hshort Ho. unfold Integrate.
  unfold head at 1.
  destruct (Nat.leb_spec (num_positions_ s) (length x)) as [Hxp | Hxp]; [ | reflexivity].
  cbn [rbind]. unfold head at 1. rewrite length_vscale.
  destruct (Nat.leb_spec (num_velocities_ s) (length dx)) as [Hdx | Hdx]; [ | reflexivity].
  cbn [rbind]. rewrite fill_head_ok by lia. cbn [rbind].
  unfold tail at 1.
  destruct (Nat.leb_spec (num_velocities_ s) (length x)) as [Hxv | Hxv]; [lia | reflexivity].
Qed.

(** X13. [Integrate] writes the whole of an [xout] of the state's size: the
    outcome is the same whatever [xout] held, and a returned [xout] keeps
    that size. It never throws; it fails exactly when [x] has fewer
    coefficients than [num_positions] or [num_velocities], or [dx] fewer
    than [num_velocities]. *)
Theorem pinocchio_Integrate_overwrites_xout
    (s : PinocchioDynamicsSolver) (x dx : Vec) (dt : R) (xout xout' : Vec) :
  length xout = (num_positions_ s + num_velocities_ s)%nat ->
  length xout' = (num_positions_ s + num_velocities_ s)%nat ->
  Integrate s x dx dt xout = Integrate s x dx dt xout' /\
  match Integrate s x dx dt xout with
  | Ok y =>
      length y = (num_positions_ s + num_velocities_ s)%nat /\
      (num_positions_ s <= length x)%nat /\ (num_velocities_ s <= length x)%nat /\
      (num_velocities_ s <= length dx)%nat
  | Throw _ => False
  | Abort =>
      (length x < num_positions_ s \/ length x < num_velocities_ s \/
       length dx < num_velocities_ s)%nat
  end.
Proof.
  intros Ho Ho'.
  destruct (le_lt_dec (num_positions_ s) (length x)) as [Hxp | Hxp];
    [destruct (le_lt_dec (num_velocities_ s) (length x)) as [Hxv | Hxv];
       [destruct (le_lt_dec (num_velocities_ s) (length dx)) as [Hdx | Hdx] | ] | ].
  - rewrite (Integrate_value s x dx dt xout Hxp Hxv Hdx Ho).
    rewrite (Integrate_value s x dx dt xout' Hxp Hxv Hdx Ho').
    split; [reflexivity | ].
    repeat split; try assumption.
    rewrite length_app, length_vec_init, length_zipWith, length_skipn;
      [lia | rewrite !length_skipn, length_vscale; lia].
  - rewrite !Integrate_aborts by (assumption || lia). split; [reflexivity | lia].
  - rewrite !Integrate_aborts by (assumption || lia). split; [reflexivity | lia].
  - rewrite !Integrate_aborts by (assumption || lia). split; [reflexivity | lia].
Qed.

Lemma vscale_0 (v : Vec) : vscale 0 v = vZero (length v).
Proof.
  unfold vscale, vZero. induction v as [ | a v IH]; [reflexivity | ].
  cbn. rewrite IH, Rmult_0_l. reflexivity.
Qed.

Lemma firstn_vZero (n k : nat) : (n <= k)%nat -> firstn n (vZero k) = vZero n.
Proof.
  unfold vZero. revert k. induction n as [ | n IH]; intros k H; [reflexivity | ].
  destruct k as [ | k]; [lia | ]. cbn. f_equal. apply IH. lia.
Qed.

Lemma skipn_vZero (n k : nat) : skipn n (vZero k) = vZero (k - n).
Proof.
  unfold vZero. revert k. induction n as [ | n IH]; intros k.
  - rewrite Nat.sub_0_r. reflexivity.
  - destruct k as [ | k]; [reflexivity | ]. cbn. apply IH.
Qed.

Lemma zipWith_plus_zero (v : Vec) : zipWith Rplus v (vZero (length v)) = v.
Proof.
  unfold vZero. induction v as [ | a v IH]; [reflexivity | ].
  cbn. rewrite IH, Rplus_0_r. reflexivity.
Qed.

(** X14. A step of length zero changes nothing: when the engine integrates
    the zero tangent vector to the configuration it started from,
    [Integrate(x, dx, 0)] returns [x], whatever [dx] is. *)
Theorem pinocchio_Integrate_zero_step
    (s : PinocchioDynamicsSolver) (x dx xout : Vec) :
  engine_integrate_zero ->
  num_positions_ s = nq (model_ s) -> num_velocities_ s = nv (model_ s) ->
  length x = (num_positions_ s + num_velocities_ s)%nat ->
  (num_velocities_ s <= length dx)%nat ->
  length xout = (num_positions_ s + num_velocities_ s)%nat ->
  Integrate s x dx 0 xout = Ok x.
Proof.
  intros Hzero Hnq Hnv Hx Hdx Ho.
  rewrite (Integrate_value s x dx 0 xout) by lia.
  rewrite vscale_0, firstn_vZero by lia. rewrite skipn_vZero.
  replace (length dx - (length dx - num_velocities_ s))%nat
    with (length (skipn (length x - num_velocities_ s) x))
    by (rewrite length_skipn; lia).
  rewrite zipWith_plus_zero.
  replace (length x - num_velocities_ s)%nat with (num_positions_ s) by lia.
  rewrite Hnv, Hnq at 1. rewrite Hnq at 1.
  rewrite Hzero.
  - rewrite <- Hnq. rewrite firstn_skipn. reflexivity.
  - rewrite <- Hnq. apply firstn_length_le. lia.
Qed.

Lemma InverseDynamics_bound (m : Model) (s : PinocchioDynamicsSolver) (x : Vec) :
  bound m s -> bound m (snd (InverseDynamics x s)).
Proof.
  intros Hb. destruct (bound_data m s Hb) as [d Hd].
  unfold InverseDynamics, mbind, lift, get, modify, mret.
  rewrite Hd. cbn [deref].
  destruct (head (num_positions_ s) x) as [q | msg | ]; try exact Hb.
  destruct (tail (num_velocities_ s) x) as [v | msg | ]; try exact Hb.
  destruct (rnea (model_ s) d q v (vZero (num_velocities_ s))) as [d' tau].
  cbn [snd]. apply bound_set_data. exact Hb.
Qed.

Lemma SimulateOneStep_state (uninitialized : nat -> R)
    (s : PinocchioDynamicsSolver) (x u : Vec) :
  snd (SimulateOneStep uninitialized x u s) = snd (f x u s).
Proof.
  unfold SimulateOneStep, mbind, lift, get, mret.
  destruct (f x u s) as [[dx | msg | ] s1]; try reflexivity.
  destruct (Integrate s1 x dx (dt_ s1) _) as [y | msg | ]; reflexivity.
Qed.

Lemma SimulateOneStep_result (uninitialized : nat -> R)
    (s : PinocchioDynamicsSolver) (x u : Vec) :
  fst (SimulateOneStep uninitialized x u s) =
  match fst (f x u s) with
  | Ok dx =>
      Integrate (snd (f x u s)) x dx (dt_ (snd (f x u s)))
        (vec_init (num_positions_ s + num_velocities_ s) uninitialized)
  | Throw msg => Throw msg
  | Abort => Abort
  end.
Proof.
  unfold SimulateOneStep, mbind, lift, get, mret.
  destruct (f x u s) as [[dx | msg | ] s1]; try reflexivity.
  cbn [fst snd].
  destruct (Integrate s1 x dx (dt_ s1) _) as [y | msg | ]; reflexivity.
Qed.

Lemma perform_bound (uninitialized : nat -> R) (m : Model)
    (s : PinocchioDynamicsSolver) (o : operation) :
  bound m s -> bound m (snd (perform uninitialized o s)).
Proof.
  intros Hb. destruct o as [c | x u | x | x u]; unfold perform, mbind, mret.
  - pose proof (exec_bound m s c Hb) as H.
    destruct (exec c s) as [[v | msg | ] s1]; exact H.
  - apply ComputeDerivatives_bound. exact Hb.
  - pose proof (InverseDynamics_bound m s x Hb) as H.
    destruct (InverseDynamics x s) as [[v | msg | ] s1]; exact H.
  - pose proof (f_bound m s x u Hb) as H.
    rewrite <- (SimulateOneStep_state uninitialized) in H.
    destruct (SimulateOneStep uninitialized x u s) as [[v | msg | ] s1]; exact H.
Qed.

Lemma perform_all_bound (uninitialized : nat -> R) (m : Model)
    (os : list operation) (s : PinocchioDynamicsSolver) :
  bound m s -> bound m (snd (perform_all uninitialized os s)).
Proof.
  revert s. induction os as [ | o os IH]; intros s Hb; [exact Hb | ].
  cbn [perform_all]. unfold mbind.
  pose proof (perform_bound uninitialized m s o Hb) as H.
  destruct (perform uninitialized o s) as [[[] | msg | ] s1]; cbn [snd] in H |- *.
  - apply IH. exact H.
  - exact H.
  - exact H.
Qed.

(** A solver that was bound to a fixed-base scene and then used. *)
Lemma used_solver_bound (uninitialized : nat -> R) (scene_in : Scene URDF)
    (s0 : PinocchioDynamicsSolver) (os : list operation) :
  ControlledBaseType scene_in = FIXED ->
  bound (buildModel (getURDF scene_in) (model_ s0))
        (snd (perform_all uninitialized os (snd (AssignScene scene_in s0)))).
Proof.
  intros Hbase. apply perform_all_bound.
  rewrite (AssignScene_FIXED scene_in s0 Hbase).
  apply bound_after_AssignScene.
Qed.

(** X15. [ComputeDerivatives], [InverseDynamics] and [SimulateOneStep] can be
    mixed with [f], [fx] and [fu] in any order: on a bound solver the outcome
    of a call of [f], [fx] or [fu] is the same after any two sequences of
    these operations. *)
Theorem pinocchio_operations_do_not_disturb_calls
    (uninitialized : nat -> R) (scene_in : Scene URDF)
    (s0 : PinocchioDynamicsSolver) (before before' : list operation) (c : call) :
  engine_stateless -> ControlledBaseType scene_in = FIXED ->
  let s := snd (AssignScene scene_in s0) in
  fst (exec c (snd (perform_all uninitialized before s))) =
  fst (exec c (snd (perform_all uninitialized before' s))).
Proof.
  intros Hengine Hbase s.
  apply (exec_determined (buildModel (getURDF scene_in) (model_ s0)));
    [exact Hengine | | ]; apply used_solver_bound; exact Hbase.
Qed.

(** X16. On a bound solver, for a state of the bound size, [f] returns the
    velocity part of the state followed by the acceleration the engine's
    forward dynamics computes, [2 * num_velocities] coefficients in all; it
    leaves this vector in [xdot_analytic_] and does not touch [fx_] and
    [fu_]. *)
Theorem pinocchio_f_velocity_then_acceleration
    (uninitialized : nat -> R) (scene_in : Scene URDF)
    (s0 : PinocchioDynamicsSolver) (before : list operation) (x u : Vec) :
  engine_ddq_sized -> ControlledBaseType scene_in = FIXED ->
  let s := snd (perform_all uninitialized before (snd (AssignScene scene_in s0))) in
  length x = (num_positions_ s + num_velocities_ s)%nat ->
  exists d,
    pinocchio_data_ s = Some d /\
    let xdot := skipn (num_positions_ s) x ++
                ddq (aba (model_ s) d (firstn (num_positions_ s) x)
                       (skipn (num_positions_ s) x) u) in
    fst (f x u s) = Ok xdot /\
    length xdot = (2 * num_velocities_ s)%nat /\
    xdot_analytic_ (snd (f x u s)) = xdot /\
    fx_ (snd (f x u s)) = fx_ s /\ fu_ (snd (f x u s)) = fu_ s.
Proof.
  intros Hsized Hbase s Hx.
  pose proof (used_solver_bound uninitialized scene_in s0 before Hbase) as Hb.
  fold s in Hb. set (m := buildModel (getURDF scene_in) (model_ s0)) in *.
  pose proof (bound_model m s Hb) as Hm.
  pose proof (bound_positions m s Hb) as Hnq.
  pose proof (bound_velocities m s Hb) as Hnv.
  destruct (bound_data m s Hb) as [d Hd].
  exists d. split; [exact Hd | ].
  assert (Hq : head (nq m) x = Ok (firstn (num_positions_ s) x))
    by (rewrite <- Hnq; apply head_long_enough; lia).
  assert (Hv : tail (nv m) x = Ok (skipn (num_positions_ s) x)).
  { rewrite <- Hnv. rewrite tail_long_enough by lia. do 2 f_equal. lia. }
  rewrite (f_runs m s x u _ _ d Hb Hd Hq Hv). cbv zeta.
  rewrite Hsized, Nat.eqb_refl, Hm. cbn [fst snd].
  split; [reflexivity | ].
  split; [ | repeat split; reflexivity].
  rewrite length_app, length_skipn, Hsized. lia.
Qed.

Lemma fx_after_ComputeDerivatives (s : PinocchioDynamicsSolver) (x u : Vec) :
  fx x u s =
  match ComputeDerivatives x u s with
  | (Ok _, s') => (Ok (fx_ s'), s')
  | (Throw msg, s') => (Throw msg, s')
  | (Abort, s') => (Abort, s')
  end.
Proof.
  unfold fx, mbind, get, mret.
  destruct (ComputeDerivatives x u s) as [[[] | msg | ] s']; reflexivity.
Qed.

Lemma fu_after_ComputeDerivatives (s : PinocchioDynamicsSolver) (x u : Vec) :
  fu x u s =
  match ComputeDerivatives x u s with
  | (Ok _, s') => (Ok (fu_ s'), s')
  | (Throw msg, s') => (Throw msg, s')
  | (Abort, s') => (Abort, s')
  end.
Proof.
  unfold fu, mbind, get, mret.
  destruct (ComputeDerivatives x u s) as [[[] | msg | ] s']; reflexivity.
Qed.

(** X17. On a bound solver, for a state of the bound size, the four quarters
    of the matrix [fx] returns are zero, the identity, and the engine's
    derivatives of the acceleration in the configuration and in the
    velocity; [fu] returns zero on top of the engine's derivative in the
    control. *)
Theorem pinocchio_fx_fu_quadrants
    (uninitialized : nat -> R) (scene_in : Scene URDF)
    (s0 : PinocchioDynamicsSolver) (before : list operation) (x u : Vec) :
  ControlledBaseType scene_in = FIXED ->
  let s := snd (perform_all uninitialized before (snd (AssignScene scene_in s0))) in
  let n := num_velocities_ s in
  length x = (num_positions_ s + n)%nat ->
  exists d dq dv dtau J B,
    pinocchio_data_ s = Some d /\
    snd (computeABADerivatives (model_ s) d
           (firstn (num_positions_ s) x) (skipn (num_positions_ s) x) u
           (read (fx_ s) (dq_block n)) (read (fx_ s) (dv_block n))
           (read (fu_ s) (dtau_block n))) = (dq, dv, dtau) /\
    fst (fx x u s) = Ok J /\ fst (fu x u s) = Ok B /\
    rows J = (2 * n)%nat /\ cols J = (2 * n)%nat /\
    rows B = (2 * n)%nat /\ cols B = n /\
    forall i j, (i < n)%nat -> (j < n)%nat ->
      mcoeff J i j = 0 /\ mcoeff J i (n + j) = kron i j /\
      mcoeff J (n + i) j = dq i j /\ mcoeff J (n + i) (n + j) = dv i j /\
      mcoeff B i j = 0 /\ mcoeff B (n + i) j = dtau i j.
Proof.
  intros Hbase s n Hx.
  pose proof (used_solver_bound uninitialized scene_in s0 before Hbase) as Hb.
  fold s in Hb. set (m := buildModel (getURDF scene_in) (model_ s0)) in *.
  pose proof (bound_model m s Hb) as Hm.
  pose proof (bound_positions m s Hb) as Hnq.
  pose proof (bound_velocities m s Hb) as Hnv.
  destruct (bound_data m s Hb) as [d Hd].
  assert (Hq : head (nq m) x = Ok (firstn (num_positions_ s) x))
    by (rewrite <- Hnq; apply head_long_enough; lia).
  assert (Hv : tail (nv m) x = Ok (skipn (num_positions_ s) x)).
  { rewrite <- Hnv. rewrite tail_long_enough by (fold n; lia).
    do 2 f_equal. fold n. lia. }
  assert (Hn : n = nv m) by exact Hnv.
  rewrite Hm, Hn.
  destruct (computeABADerivatives m d (firstn (num_positions_ s) x)
              (skipn (num_positions_ s) x) u
              (read (fx_ s) (dq_block (nv m))) (read (fx_ s) (dv_block (nv m)))
              (read (fu_ s) (dtau_block (nv m))))
    as [d' [[dq dv] dtau]] eqn:Hcall.
  exists d, dq, dv, dtau. do 2 eexists.
  split; [exact Hd | ]. split; [rewrite Hcall; reflexivity | ].
  rewrite fx_after_ComputeDerivatives, fu_after_ComputeDerivatives.
  rewrite (ComputeDerivatives_returns m s x u _ _ d d' dq dv dtau Hb Hd Hq Hv Hcall).
  cbn [fst set_fu set_fx set_data fx_ fu_].
  split; [reflexivity | ]. split; [reflexivity | ].
  destruct Hb as [_ _ _ _ _ _ Hfr Hfc Hft Hur Huc Hut].
  rewrite !rows_write, !cols_write.
  split; [exact Hfr | ]. split; [exact Hfc | ].
  split; [exact Hur | ]. split; [exact Huc | ].
  intros i j Hi Hj.
  assert (Hw : forall a b, (a < 2 * nv m)%nat -> (b < 2 * nv m)%nat ->
    mcoeff (write (write (fx_ s) (dq_block (nv m)) dq) (dv_block (nv m)) dv) a b =
    if inside (dv_block (nv m)) a b then dv (a - nv m)%nat (b - nv m)%nat
    else if inside (dq_block (nv m)) a b then dq (a - nv m)%nat (b - 0)%nat
    else mcoeff (fx_ s) a b).
  { intros a b Ha Hb'.
    rewrite mcoeff_write by (rewrite ?rows_write, ?cols_write; lia).
    rewrite mcoeff_write by lia. reflexivity. }
  rewrite !Hw by lia.
  rewrite !mcoeff_write by lia.
  rewrite (inside_below (dv_block (nv m)) i j) by (cbn [dv_block row0]; lia).
  rewrite (inside_below (dq_block (nv m)) i j) by (cbn [dq_block row0]; lia).
  rewrite (inside_below (dv_block (nv m)) i (nv m + j)) by (cbn [dv_block row0]; lia).
  rewrite (inside_below (dq_block (nv m)) i (nv m + j)) by (cbn [dq_block row0]; lia).
  rewrite (inside_left_of (dv_block (nv m)) (nv m + i) j) by (cbn [dv_block col0]; lia).
  replace (inside (dq_block (nv m)) (nv m + i) j) with true
    by (symmetry; apply inside_spec; cbn [dq_block row0 col0 height width]; lia).
  replace (inside (dv_block (nv m)) (nv m + i) (nv m + j)) with true
    by (symmetry; apply inside_spec; cbn [dv_block row0 col0 height width]; lia).
  rewrite (inside_below (dtau_block (nv m)) i j) by (cbn [dtau_block row0]; lia).
  replace (inside (dtau_block (nv m)) (nv m + i) j) with true
    by (symmetry; apply inside_spec; cbn [dtau_block row0 col0 height width]; lia).
  cbn [dtau_block row0 col0].
  rewrite !Hft by lia. rewrite Hut by lia.
  replace (nv m <=? j)%nat with false by (symmetry; apply Nat.leb_gt; lia).
  replace (nv m <=? nv m + j)%nat with true by (symmetry; apply Nat.leb_le; lia).
  replace (nv m + i - nv m)%nat with i by lia.
  replace (nv m + j - nv m)%nat with j by lia.
  replace (nv m + i - (2 * nv m - nv m))%nat with i by lia.
  replace (j - (nv m - nv m))%nat with j by lia.
  rewrite Nat.sub_0_r.
  repeat split; reflexivity.
Qed.

Lemma fx_fu_determined (m : Model) (s s' : PinocchioDynamicsSolver) (x u : Vec) :
  engine_stateless -> bound m s -> bound m s' ->
  fst (fx x u s) = fst (fx x u s') /\ fst (fu x u s) = fst (fu x u s').
Proof.
  intros Hengine Hb Hb'.
  pose proof (exec_determined m s s' (Call_fx x u) Hengine Hb Hb') as Hfx.
  pose proof (exec_determined m s s' (Call_fu x u) Hengine Hb Hb') as Hfu.
  unfold exec, mbind, mret in Hfx, Hfu.
  destruct (fx x u s) as [[J | msg | ] s1], (fx x u s') as [[J' | msg' | ] s1'];
    destruct (fu x u s) as [[B | msg2 | ] s2], (fu x u s') as [[B' | msg2' | ] s2'];
    cbn [fst] in *; split; congruence.
Qed.

(** X18. [fx] and [fu] run the same computation: after [fx(x, u)] the buffer
    [fu_] already holds what [fu(x, u)] then returns, and after [fu(x, u)]
    the buffer [fx_] already holds what [fx(x, u)] then returns. *)
Theorem pinocchio_fx_and_fu_share_one_computation
    (uninitialized : nat -> R) (scene_in : Scene URDF)
    (s0 : PinocchioDynamicsSolver) (before : list operation) (x u : Vec) :
  engine_stateless -> ControlledBaseType scene_in = FIXED ->
  let s := snd (perform_all uninitialized before (snd (AssignScene scene_in s0))) in
  length x = (num_positions_ s + num_velocities_ s)%nat ->
  fst (fu x u (snd (fx x u s))) = Ok (fu_ (snd (fx x u s))) /\
  fst (fx x u (snd (fu x u s))) = Ok (fx_ (snd (fu x u s))).
Proof.
  intros Hengine Hbase s Hx.
  pose proof (used_solver_bound uninitialized scene_in s0 before Hbase) as Hb.
  fold s in Hb. set (m := buildModel (getURDF scene_in) (model_ s0)) in *.
  pose proof (bound_positions m s Hb) as Hnq.
  pose proof (bound_velocities m s Hb) as Hnv.
  destruct (bound_data m s Hb) as [d Hd].
  assert (Hq : head (nq m) x = Ok (firstn (nq m) x)) by (apply head_long_enough; lia).
  assert (Hv : tail (nv m) x = Ok (skipn (length x - nv m) x))
    by (apply tail_long_enough; lia).
  pose proof (ComputeDerivatives_bound m s x u Hb) as Hb1.
  destruct (computeABADerivatives m d (firstn (nq m) x) (skipn (length x - nv m) x) u
              (read (fx_ s) (dq_block (nv m))) (read (fx_ s) (dv_block (nv m)))
              (read (fu_ s) (dtau_block (nv m))))
    as [d' [[dq dv] dtau]] eqn:Hcall.
  pose proof (ComputeDerivatives_returns m s x u _ _ d d' dq dv dtau Hb Hd Hq Hv Hcall)
    as Hret.
  assert (Hsfx : snd (fx x u s) = snd (ComputeDerivatives x u s))
    by (rewrite fx_after_ComputeDerivatives, Hret; reflexivity).
  assert (Hsfu : snd (fu x u s) = snd (ComputeDerivatives x u s))
    by (rewrite fu_after_ComputeDerivatives, Hret; reflexivity).
  assert (Hvfx : fst (fx x u s) = Ok (fx_ (snd (ComputeDerivatives x u s))))
    by (rewrite fx_after_ComputeDerivatives, Hret; reflexivity).
  assert (Hvfu : fst (fu x u s) = Ok (fu_ (snd (ComputeDerivatives x u s))))
    by (rewrite fu_after_ComputeDerivatives, Hret; reflexivity).
  rewrite Hsfx, Hsfu.
  destruct (fx_fu_determined m (snd (ComputeDerivatives x u s)) s x u Hengine Hb1 Hb)
    as [Hfx Hfu].
  rewrite Hfx, Hfu. split; assumption.
Qed.

Lemma vscale_app (c : R) (v w : Vec) : vscale c (v ++ w) = vscale c v ++ vscale c w.
Proof. unfold vscale. apply map_app. Qed.

(** X19. [SimulateOneStep] is one explicit Euler step of length [dt_]: with
    [f(x, u) = (v, a)], the new velocity is [v + dt_ * a] and the new
    configuration is the engine's integration of [dt_ * v] from the
    configuration of [x]. *)
Theorem pinocchio_SimulateOneStep_is_an_Euler_step
    (uninitialized : nat -> R) (scene_in : Scene URDF)
    (s0 : PinocchioDynamicsSolver) (before : list operation) (x u : Vec) :
  engine_ddq_sized -> ControlledBaseType scene_in = FIXED ->
  let s := snd (perform_all uninitialized before (snd (AssignScene scene_in s0))) in
  length x = (num_positions_ s + num_velocities_ s)%nat ->
  let q := firstn (num_positions_ s) x in
  let v := skipn (num_positions_ s) x in
  exists a,
    fst (f x u s) = Ok (v ++ a) /\ length a = num_velocities_ s /\
    fst (SimulateOneStep uninitialized x u s) =
      Ok (vec_init (num_positions_ s) (integrate (model_ s) q (vscale (dt_ s) v))
          ++ zipWith Rplus v (vscale (dt_ s) a)).
Proof.
  intros Hsized Hbase s Hx q v.
  pose proof (used_solver_bound uninitialized scene_in s0 before Hbase) as Hb.
  fold s in Hb. set (m := buildModel (getURDF scene_in) (model_ s0)) in *.
  pose proof (bound_model m s Hb) as Hm.
  pose proof (bound_positions m s Hb) as Hnq.
  pose proof (bound_velocities m s Hb) as Hnv.
  destruct (bound_data m s Hb) as [d Hd].
  assert (Hq : head (nq m) x = Ok q)
    by (unfold q; rewrite <- Hnq; apply head_long_enough; lia).
  assert (Hv : tail (nv m) x = Ok v).
  { unfold v. rewrite <- Hnv. rewrite tail_long_enough by lia. do 2 f_equal. lia. }
  assert (Hlv : length v = num_velocities_ s)
    by (unfold v; rewrite length_skipn; lia).
  pose proof (f_runs m s x u q v d Hb Hd Hq Hv) as Hf. cbv zeta in Hf.
  rewrite Hsized, Nat.eqb_refl in Hf.
  set (a := ddq (aba m d q v u)) in *.
  assert (Hla : length a = num_velocities_ s) by (unfold a; rewrite Hsized; lia).
  exists a. rewrite SimulateOneStep_result, Hf. cbn [fst snd].
  split; [reflexivity | ]. split; [exact Hla | ].
  cbn [set_xdot_analytic set_data dt_].
  rewrite Integrate_value;
    cbn [set_xdot_analytic set_data num_positions_ num_velocities_ model_];
    try (rewrite ?length_app, ?length_vec_init; lia).
  rewrite vscale_app.
  rewrite firstn_app_exact by (rewrite length_vscale; lia).
  rewrite length_app.
  replace (length v + length a - num_velocities_ s)%nat with (length (vscale (dt_ s) v))
    by (rewrite length_vscale; lia).
  rewrite skipn_app_exact by reflexivity.
  replace (length x - num_velocities_ s)%nat with (num_positions_ s) by lia.
  reflexivity.
Qed.

(** X20. A second [AssignScene] is not refused. It hands the model built by
    the first one to the engine's builder again, takes the sizes of the
    model that comes back, and leaves the buffers as after a first binding:
    whatever [f], [fx] and [fu] wrote in between is gone. *)
Theorem pinocchio_AssignScene_rebinds_and_resets
    (uninitialized : nat -> R) (scene_1 scene_2 : Scene URDF)
    (s0 : PinocchioDynamicsSolver) (between : list operation) :
  ControlledBaseType scene_1 = FIXED -> ControlledBaseType scene_2 = FIXED ->
  let s1 := snd (perform_all uninitialized between (snd (AssignScene scene_1 s0))) in
  let m := buildModel (getURDF scene_2) (buildModel (getURDF scene_1) (model_ s0)) in
  let s2 := snd (AssignScene scene_2 s1) in
  let n := nv m in
  fst (AssignScene scene_2 s1) = Ok tt /\
  model_ s2 = m /\
  num_positions_ s2 = nq m /\ num_velocities_ s2 = n /\ num_controls_ s2 = n /\
  pinocchio_data_ s2 = Some (newData m) /\
  xdot_analytic_ s2 = vZero (2 * n) /\
  fx_ s2 = setIdentity (mZero (2 * n) (2 * n)) (mkBlock 0 (2 * n - n) n n) /\
  fu_ s2 = mZero (2 * n) n.
Proof.
  intros Hbase1 Hbase2 s1 m s2 n.
  pose proof (used_solver_bound uninitialized scene_1 s0 between Hbase1) as Hb.
  fold s1 in Hb. pose proof (bound_model _ s1 Hb) as Hm.
  unfold s2. rewrite (AssignScene_FIXED scene_2 s1 Hbase2).
  unfold after_AssignScene. rewrite Hm. fold m. fold n.
  repeat split; reflexivity.
Qed.

Lemma Integrate_ignores_xout
    (s : PinocchioDynamicsSolver) (x dx : Vec) (dt : R) (xout xout' : Vec) :
  length xout = (num_positions_ s + num_velocities_ s)%nat ->
  length xout' = (num_positions_ s + num_velocities_ s)%nat ->
  Integrate s x dx dt xout = Integrate s x dx dt xout'.
Proof.
  intros Ho Ho'.
  destruct (le_lt_dec (num_positions_ s) (length x)) as [Hxp | Hxp];
    [destruct (le_lt_dec (num_velocities_ s) (length x)) as [Hxv | Hxv];
       [destruct (le_lt_dec (num_velocities_ s) (length dx)) as [Hdx | Hdx] | ] | ].
  - rewrite (Integrate_value s x dx dt xout Hxp Hxv Hdx Ho).
    rewrite (Integrate_value s x dx dt xout' Hxp Hxv Hdx Ho'). reflexivity.
  - rewrite !Integrate_aborts by (assumption || lia). reflexivity.
  - rewrite !Integrate_aborts by (assumption || lia). reflexivity.
  - rewrite !Integrate_aborts by (assumption || lia). reflexivity.
Qed.

(** X21. [SimulateOneStep] hands [Integrate] a vector that was never
    initialised; on a bound solver nothing of what that storage held reaches
    the result or the solver. *)
Theorem pinocchio_SimulateOneStep_ignores_uninitialized
    (uninitialized garbage garbage' : nat -> R) (scene_in : Scene URDF)
    (s0 : PinocchioDynamicsSolver) (before : list operation) (x u : Vec) :
  ControlledBaseType scene_in = FIXED ->
  let s := snd (perform_all uninitialized before (snd (AssignScene scene_in s0))) in
  SimulateOneStep garbage x u s = SimulateOneStep garbage' x u s.
Proof.
  intros Hbase s.
  pose proof (used_solver_bound uninitialized scene_in s0 before Hbase) as Hb.
  fold s in Hb. set (m := buildModel (getURDF scene_in) (model_ s0)) in *.
  pose proof (f_bound m s x u Hb) as Hb1.
  apply injective_projections.
  - rewrite !SimulateOneStep_result.
    destruct (fst (f x u s)) as [dx | msg | ]; try reflexivity.
    apply Integrate_ignores_xout; rewrite length_vec_init;
      rewrite (bound_positions m _ Hb), (bound_velocities m _ Hb),
        (bound_positions m _ Hb1), (bound_velocities m _ Hb1); reflexivity.
  - rewrite !SimulateOneStep_state. reflexivity.
Qed.
End PinocchioExtras.

(** ** Properties and their containers *)

(** X22. A value assigned to one property reaches any other property through
    [copyValues], and so does the value a property was constructed with; the
    receiving property keeps its own name, type and flags: [copyValues] does
    not mark it as set. From a property that is not set nothing is copied. *)
Theorem property_copyValues_after_assign
    (T : Type) (p q : Property.Property T) (v w : T) (type name : string) (r : bool) :
  let q' := Property.copyValues q (Property.assign p v) in
  Property.getValue q' = v /\
  Property.isSet_ q' = Property.isSet_ q /\
  Property.isRequired_ q' = Property.isRequired_ q /\
  Property.name_ q' = Property.name_ q /\
  Property.type_ q' = Property.type_ q /\
  Property.getValue (Property.copyValues q (Property.make type name r v)) = v /\
  Property.copyValues q (Property.mkProperty false r name type w) = q.
Proof.
  cbv zeta. repeat split; reflexivity.
Qed.

Section InstantiableProps.

Variable Element : Type.
Variable assign_element : Element -> Element -> Element.
Variable Obj : Type.
Variable InstantiateBase : Property.PropertyContainer -> M (Property.Heap Element * Obj) unit.
Variable Instantiate : Property.PropertyContainer -> M (Property.Heap Element * Obj) unit.
Variable getContainerName : string.
Variable new_C : Property.Heap Element -> Property.PropertyContainer * Property.Heap Element.

Lemma copy_properties_outcome (init : Property.PropertyContainer)
    (params : list (string * Property.ptr)) (h : Property.Heap Element) (o : Obj) :
  exists h',
    (forall p, ~ In p (map snd params) -> h' p = h p) /\
    Property.copy_properties Element assign_element Obj init params (h, o) =
    (if Property.all_found init params
     then Ok tt
     else Throw "Combining incompatible initializers!", (h', o)).
Proof.
  revert h. induction params as [ | [k p] params IH]; intros h.
  - exists h. split; [reflexivity | reflexivity].
  - cbn [Property.copy_properties Property.all_found forallb fst].
    destruct (Property.find k (Property.properties_ init)) as [q | ].
    + unfold mbind, modify. cbn [fst snd].
      destruct (IH (Property.store Element h p (assign_element (h p) (h q))))
        as (h' & Hout & Hrun).
      exists h'. split.
      * intros p' Hp'. cbn [map snd In] in Hp'.
        rewrite Hout by tauto.
        unfold Property.store.
        destruct (Nat.eqb_spec p' p) as [-> | Hne]; [tauto | reflexivity].
      * fold (Property.all_found init params). rewrite Hrun.
        destruct (Property.all_found init params); reflexivity.
    + exists h. split; [reflexivity | reflexivity].
Qed.

(** X23. [InstantiateInternal] with an initialiser of another name, after
    [InstantiateBase] has returned: when every property name of a fresh [C]
    is a key of the initialiser, [Instantiate] runs on that [C]; when one is
    missing, the call throws and [Instantiate] does not run. Keys of the
    initialiser that [C] does not have are not looked at, and no element
    outside the fresh [C] is written. *)
Theorem InstantiateInternal_combines_or_throws
    (init tmp : Property.PropertyContainer)
    (h0 h1 h2 : Property.Heap Element) (o0 o1 : Obj) :
  String.eqb (Property.getName init) getContainerName = false ->
  InstantiateBase init (h0, o0) = (Ok tt, (h1, o1)) ->
  new_C h1 = (tmp, h2) ->
  exists h3,
    (forall p, ~ In p (map snd (Property.properties_ tmp)) -> h3 p = h2 p) /\
    Property.InstantiateInternal Element assign_element Obj
      InstantiateBase Instantiate getContainerName new_C init (h0, o0) =
    if Property.all_found init (Property.properties_ tmp)
    then Instantiate tmp (h3, o1)
    else (Throw "Combining incompatible initializers!", (h3, o1)).
Proof.
  intros Hname Hbase Hnew.
  destruct (copy_properties_outcome init (Property.properties_ tmp) h2 o1)
    as (h3 & Hout & Hrun).
  exists h3. split; [exact Hout | ].
  unfold Property.InstantiateInternal, mbind at 1. rewrite Hbase, Hname.
  unfold mbind at 1, get. cbn [fst]. rewrite Hnew.
  unfold mbind at 1, modify. cbn [snd].
  unfold mbind at 1. rewrite Hrun.
  destruct (Property.all_found init (Property.properties_ tmp)); reflexivity.
Qed.

Lemma all_found_spec (init : Property.PropertyContainer)
    (params : list (string * Property.ptr)) :
  Property.all_found init params = true <->
  forall k p, In (k, p) params ->
    exists q, Property.find k (Property.properties_ init) = Some q.
Proof.
  unfold Property.all_found. rewrite forallb_forall. split.
  - intros H k p Hin. specialize (H (k, p) Hin). cbn [fst] in H.
    destruct (Property.find k (Property.properties_ init)) as [q | ];
      [eexists; reflexivity | discriminate H].
  - intros H [k p] Hin. cbn [fst]. destruct (H k p Hin) as [q ->]. reflexivity.
Qed.

End InstantiableProps.

(** ** Concrete instances of the further properties *)

Module Instances.

Import Pinocchio.

Import Samples.


Lemma cartpole_f_mirror_witness :
  exists y, Cartpole.f (Cartpole.new 1 0.1 0.5 9.81) [0; 1; 2; 3] [4] = Ok y /\
            Cartpole.f (Cartpole.new 1 0.1 0.5 9.81)
              (vscale (-1) [0; 1; 2; 3]) (vscale (-1) [4]) = Ok (vscale (-1) y).
Proof.
  apply (cartpole_f_mirror (Cartpole.new 1 0.1 0.5 9.81) [0; 1; 2; 3] [4]);
    reflexivity.
Defined.


Lemma cartpole_unforced_equilibria_witness :
  Cartpole.f (Cartpole.new 1 0.1 0.5 9.81) [5; PI; 0; 0] [0] = Ok [0; 0; 0; 0] <->
  nth 2 [5; PI; 0; 0] 0 = 0 /\ nth 3 [5; PI; 0; 0] 0 = 0 /\
  sin (nth 1 [5; PI; 0; 0] 0) = 0.
Proof.
  apply (cartpole_unforced_equilibria (Cartpole.new 1 0.1 0.5 9.81) [5; PI; 0; 0]).
  - unfold physical. cbn. lra.
  - cbn. lra.
  - reflexivity.
Defined.


Lemma euclid_difference_self : engine_difference_self (E := Euclid.engine).
Proof.
  intros m q i Hq Hi. cbn [difference Euclid.engine]. ring.
Qed.

Lemma euclid_integrate_zero : engine_integrate_zero (E := Euclid.engine).
Proof.
  intros m q Hq.
  cbn [nq nv integrate Euclid.engine] in *.
  transitivity (vec_init (length q) (Euclid.at_ q)); [ | apply OnEuclid.vec_init_at].
  rewrite Hq. unfold vec_init. apply map_seq_ext. intros i Hi.
  unfold Euclid.at_ at 2. unfold vZero. rewrite nth_repeat. ring.
Qed.

Lemma pinocchio_StateDelta_of_a_state_with_itself_witness :
  StateDelta (E := Euclid.engine) Euclid.junk Euclid.bound1 [3; 4] [3; 4] =
  Ok (vZero (2 * num_velocities_ Euclid.bound1)).
Proof.
  apply (pinocchio_StateDelta_of_a_state_with_itself (E := Euclid.engine)
           Euclid.junk Euclid.bound1 [3; 4]).
  - exact euclid_difference_self.
  - reflexivity.
  - reflexivity.
  - reflexivity.
Defined.

Lemma pinocchio_Integrate_overwrites_xout_witness :
  Integrate (E := Euclid.engine) Euclid.bound1 [3; 4] [5; 6] 2 [7; 7] =
  Integrate (E := Euclid.engine) Euclid.bound1 [3; 4] [5; 6] 2 [8; 9] /\
  match Integrate (E := Euclid.engine) Euclid.bound1 [3; 4] [5; 6] 2 [7; 7] with
  | Ok y =>
      length y = (num_positions_ Euclid.bound1 + num_velocities_ Euclid.bound1)%nat /\
      (num_positions_ Euclid.bound1 <= length [3; 4])%nat /\
      (num_velocities_ Euclid.bound1 <= length [3; 4])%nat /\
      (num_velocities_ Euclid.bound1 <= length [5; 6])%nat
  | Throw _ => False
  | Abort =>
      (length [3; 4] < num_positions_ Euclid.bound1 \/
       length [3; 4] < num_velocities_ Euclid.bound1 \/
       length [5; 6] < num_velocities_ Euclid.bound1)%nat
  end.
Proof.
  apply (pinocchio_Integrate_overwrites_xout (E := Euclid.engine)
           Euclid.bound1 [3; 4] [5; 6] 2 [7; 7] [8; 9]); reflexivity.
Defined.

Lemma pinocchio_Integrate_zero_step_witness :
  Integrate (E := Euclid.engine) Euclid.bound1 [3; 4] [5; 6] 0 [7; 7] = Ok [3; 4].
Proof.
  apply (pinocchio_Integrate_zero_step (E := Euclid.engine)
           Euclid.bound1 [3; 4] [5; 6] [7; 7]).
  - exact euclid_integrate_zero.
  - reflexivity.
  - reflexivity.
  - reflexivity.
  - cbn. lia.
  - reflexivity.
Defined.

Lemma pinocchio_operations_do_not_disturb_calls_witness :
  fst (exec (E := Euclid.engine) (Call_fu [6; 7] [8]) used1) =
  fst (exec (E := Euclid.engine) (Call_fu [6; 7] [8])
         (snd (perform_all (E := Euclid.engine) Euclid.junk []
                 (snd (AssignScene (E := Euclid.engine) Euclid.one_joint Euclid.fresh))))).
Proof.
  apply (pinocchio_operations_do_not_disturb_calls (E := Euclid.engine)
           Euclid.junk Euclid.one_joint Euclid.fresh history [] (Call_fu [6; 7] [8])).
  - exact OnEuclid.euclid_stateless.
  - reflexivity.
Defined.

Lemma pinocchio_f_velocity_then_acceleration_witness :
  exists d,
    pinocchio_data_ used1 = Some d /\
    let xdot := skipn (num_positions_ used1) [6; 7] ++
                ddq (aba (model_ used1) d (firstn (num_positions_ used1) [6; 7])
                       (skipn (num_positions_ used1) [6; 7]) [8]) in
    fst (f [6; 7] [8] used1) = Ok xdot /\
    length xdot = (2 * num_velocities_ used1)%nat /\
    xdot_analytic_ (snd (f [6; 7] [8] used1)) = xdot /\
    fx_ (snd (f [6; 7] [8] used1)) = fx_ used1 /\
    fu_ (snd (f [6; 7] [8] used1)) = fu_ used1.
Proof.
  apply (pinocchio_f_velocity_then_acceleration (E := Euclid.engine)
           Euclid.junk Euclid.one_joint Euclid.fresh history [6; 7] [8]).
  - exact OnEuclid.euclid_ddq_sized.
  - reflexivity.
  - reflexivity.
Defined.

Lemma pinocchio_fx_fu_quadrants_witness :
  let n := num_velocities_ used1 in
  exists d dq dv dtau J B,
    pinocchio_data_ used1 = Some d /\
    snd (computeABADerivatives (model_ used1) d
           (firstn (num_positions_ used1) [6; 7])
           (skipn (num_positions_ used1) [6; 7]) [8]
           (read (fx_ used1) (dq_block n)) (read (fx_ used1) (dv_block n))
           (read (fu_ used1) (dtau_block n))) = (dq, dv, dtau) /\
    fst (fx [6; 7] [8] used1) = Ok J /\ fst (fu [6; 7] [8] used1) = Ok B /\
    rows J = (2 * n)%nat /\ cols J = (2 * n)%nat /\
    rows B = (2 * n)%nat /\ cols B = n /\
    forall i j, (i < n)%nat -> (j < n)%nat ->
      mcoeff J i j = 0 /\ mcoeff J i (n + j) = kron i j /\
      mcoeff J (n + i) j = dq i j /\ mcoeff J (n + i) (n + j) = dv i j /\
      mcoeff B i j = 0 /\ mcoeff B (n + i) j = dtau i j.
Proof.
  apply (pinocchio_fx_fu_quadrants (E := Euclid.engine)
           Euclid.junk Euclid.one_joint Euclid.fresh history [6; 7] [8]).
  - reflexivity.
  - reflexivity.
Defined.

Lemma pinocchio_fx_and_fu_share_one_computation_witness :
  fst (fu [6; 7] [8] (snd (fx [6; 7] [8] used1))) =
    Ok (fu_ (snd (fx [6; 7] [8] used1))) /\
  fst (fx [6; 7] [8] (snd (fu [6; 7] [8] used1))) =
    Ok (fx_ (snd (fu [6; 7] [8] used1))).
Proof.
  apply (pinocchio_fx_and_fu_share_one_computation (E := Euclid.engine)
           Euclid.junk Euclid.one_joint Euclid.fresh history [6; 7] [8]).
  - exact OnEuclid.euclid_stateless.
  - reflexivity.
  - reflexivity.
Defined.

Lemma pinocchio_SimulateOneStep_is_an_Euler_step_witness :
  let q := firstn (num_positions_ used1) [6; 7] in
  let v := skipn (num_positions_ used1) [6; 7] in
  exists a,
    fst (f [6; 7] [8] used1) = Ok (v ++ a) /\ length a = num_velocities_ used1 /\
    fst (SimulateOneStep (E := Euclid.engine) Euclid.junk [6; 7] [8] used1) =
      Ok (vec_init (num_positions_ used1)
            (integrate (model_ used1) q (vscale (dt_ used1) v))
          ++ zipWith Rplus v (vscale (dt_ used1) a)).
Proof.
  apply (pinocchio_SimulateOneStep_is_an_Euler_step (E := Euclid.engine)
           Euclid.junk Euclid.one_joint Euclid.fresh history [6; 7] [8]).
  - exact OnEuclid.euclid_ddq_sized.
  - reflexivity.
  - reflexivity.
Defined.

Lemma pinocchio_AssignScene_rebinds_and_resets_witness :
  let m := buildModel (Engine := Euclid.engine) (getURDF Euclid.one_joint)
             (buildModel (Engine := Euclid.engine) (getURDF Euclid.one_joint)
                (model_ Euclid.fresh)) in
  let s2 := snd (AssignScene (E := Euclid.engine) Euclid.one_joint used1) in
  let n := nv (Engine := Euclid.engine) m in
  fst (AssignScene (E := Euclid.engine) Euclid.one_joint used1) = Ok tt /\
  model_ s2 = m /\
  num_positions_ s2 = nq (Engine := Euclid.engine) m /\
  num_velocities_ s2 = n /\ num_controls_ s2 = n /\
  pinocchio_data_ s2 = Some (newData (Engine := Euclid.engine) m) /\
  xdot_analytic_ s2 = vZero (2 * n) /\
  fx_ s2 = setIdentity (mZero (2 * n) (2 * n)) (mkBlock 0 (2 * n - n) n n) /\
  fu_ s2 = mZero (2 * n) n.
Proof.
  apply (pinocchio_AssignScene_rebinds_and_resets (E := Euclid.engine)
           Euclid.junk Euclid.one_joint Euclid.one_joint Euclid.fresh history);
    reflexivity.
Defined.

Lemma pinocchio_SimulateOneStep_ignores_uninitialized_witness :
  SimulateOneStep (E := Euclid.engine) (fun _ => 1) [6; 7] [8] used1 =
  SimulateOneStep (E := Euclid.engine) (fun _ => 2) [6; 7] [8] used1.
Proof.
  apply (pinocchio_SimulateOneStep_ignores_uninitialized (E := Euclid.engine)
           Euclid.junk (fun _ => 1) (fun _ => 2)
           Euclid.one_joint Euclid.fresh history [6; 7] [8]).
  reflexivity.
Defined.

(** The Euler step on the Euclidean engine, in numbers: one joint at
    position 6 with velocity 7, force 8, step 0.01. *)
Example euclid_SimulateOneStep_value :
  fst (SimulateOneStep (E := Euclid.engine) Euclid.junk [6; 7] [8] Euclid.bound1)
  = Ok [6 + 0.01 * 7; 7 + 0.01 * 8].
Proof.
  rewrite OnEuclid.euclid_bound1.
  unfold SimulateOneStep, mbind, get, lift, mret. cbn.
  unfold Euclid.at_. cbn. reflexivity.
Qed.
Lemma InstantiateInternal_combines_or_throws_witness :
  exists h3,
    (forall p,
       ~ In p (map snd (Property.properties_ (fst (new_AB (fun p => p))))) ->
       h3 p = (fun p => p) p) /\
    Property.InstantiateInternal nat (fun _ source => source) (list string)
      (fun _ => mret tt) record_name "C" new_AB init_D ((fun p => p), []) =
    if Property.all_found init_D (Property.properties_ (fst (new_AB (fun p => p))))
    then record_name (fst (new_AB (fun p => p))) (h3, [])
    else (Throw "Combining incompatible initializers!", (h3, [])).
Proof.
  apply (InstantiateInternal_combines_or_throws nat (fun _ source => source)
           (list string) (fun _ => mret tt) record_name "C" new_AB
           init_D (fst (new_AB (fun p => p))) (fun p => p) (fun p => p) (fun p => p) [] []);
    reflexivity.
Defined.

(** An initialiser that lacks [b] is refused. *)
Example InstantiateInternal_missing_key :
  fst (Property.InstantiateInternal nat (fun _ source => source) (list string)
         (fun _ => mret tt) record_name "C" new_AB
         (Property.mkContainer "D" [("a"%string, 0%nat)] [0%nat]) ((fun p => p), []))
  = Throw "Combining incompatible initializers!".
Proof. reflexivity. Qed.

End Instances.
